(** * CUE4Parse-Natives: the ACL interop boundary (ACL.h)

    A shallow embedding of the flat entry points of
    [CUE4Parse-Natives/ACL.h] and of the decoder session they forward to.

    - [Module Natives] embeds the code of ACL.h itself: the allocator
      hooks, the two string-returning wrappers and, in full,
      [nConvertACLTrack], over an explicit memory of element blocks.
    - [Module Session] holds the decompression context and the output
      writers.  Their code lives in ACLDecompress.h and in the ACL library,
      so that part is modelled from the specification, with the decoding
      oracle left as a parameter. *)

From Stdlib Require Import String ZArith Reals Lra.
From stdpp Require Import base option list gmap.

Local Open Scope nat_scope.

(** ** Memory: blocks of elements, and a log of allocator traffic *)

(** The two allocators that appear in ACL.h: the C runtime ([malloc]) and
    the process-wide adapter object [ACLAllocatorImpl]. *)
Inductive allocator := CRuntimeMalloc | ACLAllocatorImpl.

(** One entry per allocator call: who served it, which block, how many
    units. *)
Inductive heap_event :=
| EvAllocate (a : allocator) (b : nat) (n : nat)
| EvDeallocate (a : allocator) (b : nat).

(** What a function written as [const char* f(...)] can do when it stops:
    execute a [return] with a string, or reach the closing brace without
    one (no value is handed to the caller then). *)
Inductive outcome :=
| Returned (s : string)
| FellOffEnd.

Module Natives.
Section Natives.

(** The numeric types and conversions come from rtm and from
    ACLDecompress.h; ACL.h only moves their values around.
    [quatf]/[vector4f] are rtm's, [FQuat]/[FVector] the host's. *)
Context {quatf vector4f FQuat FVector : Type}.
Variable quat_normalize : quatf → quatf.
Variable QuatCast : quatf → FQuat.
Variable VectorCast : vector4f → FVector.

(** rtm::qvvf, one sample of a track. *)
Record qvvf := Qvvf {
  rotation : quatf;
  translation : vector4f;
  scale : vector4f
}.

(** Modelled from the spec: acl::track_array_qvvf is declared in the ACL
    library.  The converted form is "a mapping from track index to an
    ordered sequence of per-sample Transforms": a list of tracks, each a
    list of samples.  The sample count of the clip is that of its first
    track, and 0 for a clip without tracks. *)
Definition track_qvvf := list qvvf.
Definition track_array_qvvf := list track_qvvf.

Definition get_num_tracks (tracks : track_array_qvvf) : nat :=
  length tracks.

Definition get_num_samples_per_track (tracks : track_array_qvvf) : nat :=
  match tracks with
  | [] => 0
  | t :: _ => length t
  end.

(** "uniform sample count across tracks in a set" *)
Definition uniform (tracks : track_array_qvvf) : Prop :=
  Forall (λ t : track_qvvf, length t = get_num_samples_per_track tracks) tracks.

(** An element slot of a block: raw memory until something is stored. *)
Inductive cell :=
| Uninit
| VecCell (v : FVector)
| QuatCell (q : FQuat).

(** A pointer is null ([None]) or the address of a block; a block is an
    array of element slots.  Blocks are numbered in allocation order. *)
Definition pointer := option nat.

Record mem := Mem {
  heap : list (list cell);
  events : list heap_event
}.

(** Computations over the memory.  [None] stands for an access outside a
    block, which C++ leaves undefined. *)
Definition M (A : Type) : Type := mem → option (A * mem).

#[global] Instance M_ret : MRet M := λ A a m, Some (a, m).
#[global] Instance M_bind : MBind M := λ A B f c m,
  match c m with
  | Some (a, m') => f a m'
  | None => None
  end.

(** A fresh block of [n] units from allocator [a]. *)
Definition allocate_from (a : allocator) (n : nat) : M nat := λ m,
  let b := length (heap m) in
  Some (b, {| heap := heap m ++ [replicate n Uninit];
              events := events m ++ [EvAllocate a b n] |}).

(** [(T* )malloc(n * sizeof(T))]: room for [n] elements.  The product is
    computed in [size_t] and [n] is a [uint32_t], so it does not wrap on a
    64-bit target; a failing [malloc] is not modelled. *)
Definition malloc (n : nat) : M nat := allocate_from CRuntimeMalloc n.

(** [p[i] = c].  A slot stands for one element of the pointer's type, so
    a block is meant to be reached through pointers of one element type
    ([FQuat*], or [FVector*] for translations and scales alike). *)
Definition store (b i : nat) (c : cell) : M unit := λ m,
  match heap m !! b with
  | Some blk =>
      if decide (i < length blk)
      then Some ((), {| heap := <[b := <[i := c]> blk]> (heap m);
                        events := events m |})
      else None
  | None => None
  end.

(** [tracks[trackIndex]] and [track[sampleIndex]] *)
Definition index {A} (l : list A) (i : nat) : M A := λ m,
  match l !! i with
  | Some x => Some (x, m)
  | None => None
  end.

(** [for (uint32_t k = i; k < i + n; ++k) body(k)].  The counters of
    ACL.h stay below a [uint32_t] bound, so they never wrap. *)
Fixpoint for_range (i n : nat) (body : nat → M unit) : M unit :=
  match n with
  | 0 => mret ()
  | S n' => body i ;; for_range (S i) n' body
  end.

(** *** acl allocator (ACL.h, lines 5-6) *)

Definition nAllocate (size alignment : nat) : M pointer :=
  b ← allocate_from ACLAllocatorImpl size; mret (Some b).

Definition nDeallocate (ptr : pointer) (size : nat) : M unit := λ m,
  match ptr with
  | Some b =>
      Some ((), {| heap := <[b := []]> (heap m);
                   events := events m ++ [EvDeallocate ACLAllocatorImpl b] |})
  | None => Some ((), m)
  end.

(** *** acl convert (ACL.h, lines 23-57) *)

(** [if (!p) p = (T* )malloc(numSamples * sizeof(T));] *)
Definition or_malloc (p : pointer) (numSamples : nat) : M nat :=
  match p with
  | None => malloc numSamples
  | Some b => mret b
  end.

Definition nConvertACLTrack (tracks : track_array_qvvf) (trackIndex : nat)
    (outPosKeys outRotKeys outScaleKeys : pointer) : M outcome :=
  let numSamples := get_num_samples_per_track tracks in
  if decide (numSamples = 0) then mret (Returned "Clip has no samples")
  else
    outPosKeys ← or_malloc outPosKeys numSamples;
    outRotKeys ← or_malloc outRotKeys numSamples;
    outScaleKeys ← or_malloc outScaleKeys numSamples;
    let numTracks := get_num_tracks tracks in
    for_range 0 numTracks (λ trackIndex,
      track ← index tracks trackIndex;
      for_range 0 numSamples (λ sampleIndex,
        s ← index track sampleIndex;
        store outRotKeys sampleIndex
              (QuatCell (QuatCast (quat_normalize (rotation s)))));;
      for_range 0 numSamples (λ sampleIndex,
        s ← index track sampleIndex;
        store outPosKeys sampleIndex (VecCell (VectorCast (translation s))));;
      for_range 0 numSamples (λ sampleIndex,
        s ← index track sampleIndex;
        store outScaleKeys sampleIndex (VecCell (VectorCast (scale s)))));;
    mret FellOffEnd.

(** *** Reading the memory back *)

(** The three key arrays a track stands for, as element slots. *)
Definition rotation_key (s : qvvf) : cell :=
  QuatCell (QuatCast (quat_normalize (rotation s))).
Definition position_key (s : qvvf) : cell :=
  VecCell (VectorCast (translation s)).
Definition scale_key (s : qvvf) : cell :=
  VecCell (VectorCast (scale s)).

(** Overwriting the front of a block with [vals]. *)
Definition fill (vals blk : list cell) : list cell :=
  vals ++ drop (length vals) blk.

(** The heap after the three sample loops have run for one track. *)
Definition write_track (bp br bs : nat) (h : list (list cell))
    (track : track_qvvf) : list (list cell) :=
  alter (fill (scale_key <$> track)) bs
    (alter (fill (position_key <$> track)) bp
      (alter (fill (rotation_key <$> track)) br h)).

(** What [or_malloc] yields: the block the loops write to, and the memory
    once that block exists. *)
Definition resolve_buffer (p : pointer) (n : nat) (m : mem) : nat * mem :=
  match p with
  | Some b => (b, m)
  | None =>
      let b := length (heap m) in
      (b, {| heap := heap m ++ [replicate n Uninit];
             events := events m ++ [EvAllocate CRuntimeMalloc b n] |})
  end.

(** Slot [i] of block [b]. *)
Definition cell_at (m : mem) (b i : nat) : option cell :=
  blk ← heap m !! b; blk !! i.

(** Block [b] exists and has room for [n] elements. *)
Definition room (h : list (list cell)) (n b : nat) : Prop :=
  match h !! b with
  | Some blk => n ≤ length blk
  | None => False
  end.

(** A buffer argument is usable: absent, or a block with room. *)
Definition usable (m : mem) (n : nat) (p : pointer) : Prop :=
  match p with
  | Some b => room (heap m) n b
  | None => True
  end.

(** Two buffer arguments do not name the same block. *)
Definition apart (p q : pointer) : Prop :=
  match p, q with
  | Some a, Some b => a ≠ b
  | _, _ => True
  end.

(** How many blocks a call has to allocate for an argument. *)
Definition absent (p : pointer) : nat :=
  match p with
  | Some _ => 0
  | None => 1
  end.

Definition served_by (e : heap_event) : allocator :=
  match e with
  | EvAllocate a _ _ => a
  | EvDeallocate a _ => a
  end.

(** What one round of the track loop makes of block [b]: the loops run
    in the order rotation, translation, scale, so among the buffers that
    name [b] the one written last decides. *)
Definition settle (bp br bs : nat) (track : track_qvvf) (b : nat)
    (blk : list cell) : list cell :=
  if decide (b = bs) then fill (scale_key <$> track) blk
  else if decide (b = bp) then fill (position_key <$> track) blk
  else if decide (b = br) then fill (rotation_key <$> track) blk
  else blk.

(** A buffer argument names a block with fewer than [n] elements. *)
Definition short (m : mem) (n : nat) (p : pointer) : Prop :=
  match p with
  | Some b =>
      match heap m !! b with
      | Some blk => length blk < n
      | None => False
      end
  | None => False
  end.

(** *** util and the track-list wrapper (ACL.h, lines 9 and 22) *)

(** Modelled from the spec: acl::error_result is declared in the ACL
    library.  A result is a text where "empty/null" means success: no
    message at all, read back through [c_str] as the empty string. *)
Definition error_result := option string.

Definition c_str (e : error_result) : string :=
  match e with
  | Some msg => msg
  | None => EmptyString
  end.

(** The library calls behind the two wrappers. *)
Context {compressed_tracks : Type}.
Variable is_valid : compressed_tracks → bool → error_result.
Variable convert_track_list :
  allocator → compressed_tracks → error_result * track_array_qvvf.

Definition nCompressedTracks_IsValid (tracks : compressed_tracks)
    (checkHash : bool) : string :=
  c_str (is_valid tracks checkHash).

(** [outTracks] is an out-parameter: the pair's second component. *)
Definition nConvertTrackList (tracks : compressed_tracks)
    : string * track_array_qvvf :=
  let r := convert_track_list ACLAllocatorImpl tracks in
  (c_str r.1, r.2).

End Natives.

Arguments qvvf : clear implicits.
Arguments track_qvvf : clear implicits.
Arguments track_array_qvvf : clear implicits.
Arguments cell : clear implicits.
Arguments mem : clear implicits.
Arguments M : clear implicits.

End Natives.

(** ** The decoder session behind the context entry points *)

(** Modelled from the spec: the rounding policy of a seek,
    "enum{Nearest, Floor, Ceil}". *)
Inductive sample_rounding_policy := Nearest | Floor | Ceil.

(** Modelled from the spec: the usage errors of section 7 (uninitialized
    context, out-of-range track index, unmapped track in a batch writer). *)
Inductive usage_error := Uninitialized | TrackOutOfRange | UnmappedTrack.

(** Modelled from the spec: an operation of the session either reports a
    usage error or completes with a value. *)
Inductive result (A : Type) :=
| Ok (a : A)
| Err (e : usage_error).
Arguments Ok {A} a.
Arguments Err {A} e.

(** Sequencing of session operations: the first error ends the sequence. *)
Definition and_then {A B} (r : result A) (k : A → result B) : result B :=
  match r with
  | Ok a => k a
  | Err e => Err e
  end.

Module Session.
Section Session.

(** The compressed payload, the pose type and the decoding oracle ("given a
    track set, a track index, and a sample/time, produce a Transform") are
    external to the session. *)
Context {CompressedTrackSet Transform : Type}.
Variable num_tracks : CompressedTrackSet → nat.
Variable structurally_valid : CompressedTrackSet → bool.
Variable default_policy : sample_rounding_policy.
Variable oracle :
  CompressedTrackSet → nat → Z → sample_rounding_policy → Transform.

(** Modelled from the spec: DecompContextDefault is declared in
    ACLDecompress.h.  The session state is "{reference to at most one
    CompressedTrackSet, current sample time (signed 64-bit), rounding policy
    for the last seek}". *)
Record Context := Ctx {
  bound : option CompressedTrackSet;
  time : Z;
  policy : sample_rounding_policy
}.

(** Modelled from the spec: "create() -> Context (empty, uninitialized)". *)
Definition create : Context :=
  {| bound := None; time := 0%Z; policy := default_policy |}.

(** Modelled from the spec: initialize "binds context to trackSet; returns
    false (without state corruption) if trackSet fails internal structural
    checks; on success, resets playback time to the clip's start and
    rounding policy to a default". *)
Definition initialize (ctx : Context) (trackSet : CompressedTrackSet)
    : bool * Context :=
  if structurally_valid trackSet
  then (true, {| bound := Some trackSet; time := 0%Z; policy := default_policy |})
  else (false, ctx).

(** Modelled from the spec: getBoundTrackSet "fails with an uninitialized
    condition if called before initialize". *)
Definition getBoundTrackSet (ctx : Context) : result CompressedTrackSet :=
  match bound ctx with
  | Some ts => Ok ts
  | None => Err Uninitialized
  end.

(** Modelled from the spec: seek "updates current time; does not decode";
    mapping the time to a sample is left to the oracle, which receives the
    time and the policy. *)
Definition seek (sampleTime : Z) (roundingPolicy : sample_rounding_policy)
    (ctx : Context) : result Context :=
  and_then (getBoundTrackSet ctx) (λ ts,
  Ok {| bound := Some ts; time := sampleTime; policy := roundingPolicy |}).

(** Modelled from the spec: FUE4OutputWriter is declared in
    ACLDecompress.h.  The batch writer wraps "a caller-owned array of
    Transform, one per logical output slot; a mapping from internal track
    index to output slot index". *)
Record OutputWriterBatch := BatchWriter {
  atoms : list Transform;
  trackToAtomsMap : gmap nat nat
}.

(** Modelled from the spec: UE4OutputTrackWriter is declared in
    ACLDecompress.h.  The single writer wraps "exactly one Transform
    slot". *)
Record OutputWriterSingle := SingleWriter {
  atom : Transform
}.

(** Modelled from the spec: the batch writer "resolves trackIndex through
    the track→slot mapping"; a track is mapped when the mapping names a slot
    of the array. *)
Definition resolve (w : OutputWriterBatch) (trackIndex : nat) : option nat :=
  slot ← trackToAtomsMap w !! trackIndex;
  if decide (slot < length (atoms w)) then Some slot else None.

(** Modelled from the spec: batch [write(trackIndex, Transform)] "stores
    into the corresponding array slot". *)
Definition write_slot (a : list Transform) (d : nat * Transform)
    : list Transform :=
  <[d.1 := d.2]> a.

(** Modelled from the spec: single [write(Transform)] "stores into its sole
    bound slot". *)
Definition write_single (w : OutputWriterSingle) (t : Transform)
    : OutputWriterSingle :=
  {| atom := t |}.

(** Modelled from the spec: the deliveries of one batch decode, for tracks
    [i], [i+1], ..., [i+n-1] "in a stable, deterministic order (ascending
    track index)"; "writing an unmapped trackIndex is an error
    condition". *)
Fixpoint deliveries (ts : CompressedTrackSet) (t : Z)
    (p : sample_rounding_policy) (w : OutputWriterBatch) (i n : nat)
    : result (list (nat * Transform)) :=
  match n with
  | 0 => Ok []
  | S n' =>
      match resolve w i with
      | None => Err UnmappedTrack
      | Some slot =>
          and_then (deliveries ts t p w (S i) n') (λ ds,
          Ok ((slot, oracle ts i t p) :: ds))
      end
  end.

(** Modelled from the spec: decompressTracks, "for the context's current
    time, for every track in the bound set, compute the interpolated
    Transform at that time and deliver it to the writer at the slot given
    by the track→slot mapping"; it "fails (reports an error, does not
    partially write)" on a usage error. *)
Definition decompressTracks (ctx : Context) (w : OutputWriterBatch)
    : result OutputWriterBatch :=
  and_then (getBoundTrackSet ctx) (λ ts,
  and_then (deliveries ts (time ctx) (policy ctx) w 0 (num_tracks ts)) (λ ds,
  Ok {| atoms := foldl write_slot (atoms w) ds;
        trackToAtomsMap := trackToAtomsMap w |})).

(** Modelled from the spec: decompressTrack, "as above but restricted to
    one named track; fails with an out-of-range condition if trackIndex ≥
    track count". *)
Definition decompressTrack (ctx : Context) (trackIndex : nat)
    (w : OutputWriterSingle) : result OutputWriterSingle :=
  and_then (getBoundTrackSet ctx) (λ ts,
  if decide (trackIndex < num_tracks ts)
  then Ok (write_single w (oracle ts trackIndex (time ctx) (policy ctx)))
  else Err TrackOutOfRange).

(** The transform a list of deliveries leaves in a slot: that of the last
    delivery addressed to it, if there is one. *)
Fixpoint last_delivery (slot : nat) (ds : list (nat * Transform))
    : option Transform :=
  match ds with
  | [] => None
  | d :: ds' =>
      match last_delivery slot ds' with
      | Some t => Some t
      | None => if decide (d.1 = slot) then Some d.2 else None
      end
  end.

(** The two call sequences of the idempotence property, on one context
    and one writer: seek, decode; and seek, decode, seek, decode. *)
Definition seek_decode (T : Z) (P : sample_rounding_policy)
    (ctx : Context) (w : OutputWriterBatch) : result OutputWriterBatch :=
  and_then (seek T P ctx) (λ c1,
  decompressTracks c1 w).

Definition seek_decode_twice (T : Z) (P : sample_rounding_policy)
    (ctx : Context) (w : OutputWriterBatch) : result OutputWriterBatch :=
  and_then (seek T P ctx) (λ c1,
  and_then (decompressTracks c1 w) (λ w1,
  and_then (seek T P c1) (λ c2,
  decompressTracks c2 w1))).

(** The same four calls when the second decode gets a writer of its own
    (a second array with the contents [w] started from), as in
    "seek; decodeA; seek; decodeB": the result is decodeB's. *)
Definition seek_decode_again (T : Z) (P : sample_rounding_policy)
    (ctx : Context) (w : OutputWriterBatch) : result OutputWriterBatch :=
  and_then (seek T P ctx) (λ c1,
  and_then (decompressTracks c1 w) (λ _,
  and_then (seek T P c1) (λ c2,
  decompressTracks c2 w))).

End Session.

Arguments Context : clear implicits.
Arguments OutputWriterBatch : clear implicits.
Arguments OutputWriterSingle : clear implicits.

End Session.

(** ** Test fixtures *)

Module Fixture.

(** Integer-valued stand-ins for the rtm and host types: four lanes for
    [quatf], [vector4f] and [FQuat], three for [FVector]. *)
Definition quatf : Type := Z * Z * Z * Z.
Definition vector4f : Type := Z * Z * Z * Z.
Definition FQuat : Type := Z * Z * Z * Z.
Definition FVector : Type := Z * Z * Z.

(** The fixture quaternions lie on a coordinate axis, where normalising
    is exact: every lane is replaced by its sign. *)
Definition quat_normalize (q : quatf) : quatf :=
  let '(x, y, z, w) := q in (Z.sgn x, Z.sgn y, Z.sgn z, Z.sgn w).

(** Lane-wise copies; [VectorCast] keeps x, y, z. *)
Definition QuatCast (q : quatf) : FQuat := q.
Definition VectorCast (v : vector4f) : FVector :=
  let '(x, y, z, _) := v in (x, y, z).

Definition sample (q : quatf) (t s : vector4f) : Natives.qvvf quatf vector4f :=
  Natives.Qvvf q t s.

(** Two tracks of four samples with known values: track 0 rotates about
    x and moves along x, track 1 rotates about y and moves along y. *)
Definition track0 : Natives.track_qvvf quatf vector4f :=
  [ sample (2, 0, 0, 0) (10, 0, 0, 0) (1, 1, 1, 0);
    sample (3, 0, 0, 0) (11, 0, 0, 0) (1, 1, 1, 0);
    sample (-2, 0, 0, 0) (12, 0, 0, 0) (2, 2, 2, 0);
    sample (0, 0, 0, 1) (13, 0, 0, 0) (2, 2, 2, 0) ]%Z.

Definition track1 : Natives.track_qvvf quatf vector4f :=
  [ sample (0, 5, 0, 0) (0, 20, 0, 0) (3, 3, 3, 0);
    sample (0, -5, 0, 0) (0, 21, 0, 0) (3, 3, 3, 0);
    sample (0, 0, 0, 7) (0, 22, 0, 0) (4, 4, 4, 0);
    sample (0, 1, 0, 0) (0, 23, 0, 0) (4, 4, 4, 0) ]%Z.

Definition clip : Natives.track_array_qvvf quatf vector4f := [track0; track1].

(** A clip whose only track has no samples, and a one-sample clip. *)
Definition empty_clip : Natives.track_array_qvvf quatf vector4f := [[]].
Definition tiny_clip : Natives.track_array_qvvf quatf vector4f :=
  [[ sample (0, 0, 0, 4) (1, 2, 3, 0) (1, 1, 1, 0) ]%Z].

Definition convert :=
  Natives.nConvertACLTrack quat_normalize QuatCast VectorCast.

(** Caller memory with three buffers of four (five, six) raw elements. *)
Definition no_memory : Natives.mem FQuat FVector :=
  {| Natives.heap := []; Natives.events := [] |}.
Definition three_buffers : Natives.mem FQuat FVector :=
  {| Natives.heap := [replicate 4 Natives.Uninit;
                      replicate 5 Natives.Uninit;
                      replicate 6 Natives.Uninit];
     Natives.events := [] |}.

(** A fake decoding oracle: the "transform" records what was asked. *)
Definition Transform : Type := nat * Z * sample_rounding_policy.
Definition fake_oracle (ts : nat) (trackIndex : nat) (t : Z)
    (p : sample_rounding_policy) : Transform :=
  (trackIndex, t, p).

(** A "track set" of the fake oracle is just its track count; every set
    passes the structural check. *)
Definition fake_num_tracks (ts : nat) : nat := ts.
Definition fake_valid (ts : nat) : bool := true.

(** A bound context over three tracks, and a writer of four slots that
    places track 0 in slot 2, track 1 in slot 0 and track 2 in slot 3. *)
Definition bound_context : Session.Context nat :=
  (Session.initialize fake_valid Nearest (Session.create Nearest) 3).2.
Definition seeked_context : Session.Context nat :=
  {| Session.bound := Some 3; Session.time := 7%Z; Session.policy := Floor |}.
Definition blank : Transform := (99, 0%Z, Nearest).
Definition four_slots : Session.OutputWriterBatch Transform :=
  {| Session.atoms := replicate 4 blank;
     Session.trackToAtomsMap := list_to_map [(0, 2); (1, 0); (2, 3)] |}.

Definition fake_seek_decode :=
  Session.seek_decode fake_num_tracks fake_oracle.
Definition fake_seek_decode_twice :=
  Session.seek_decode_twice fake_num_tracks fake_oracle.
Definition fake_seek_decode_again :=
  Session.seek_decode_again fake_num_tracks fake_oracle.

(** Caller memory whose middle buffer holds two elements only, and a clip
    whose second track stops after two samples. *)
Definition cramped_buffers : Natives.mem FQuat FVector :=
  {| Natives.heap := [replicate 4 Natives.Uninit;
                      replicate 2 Natives.Uninit;
                      replicate 4 Natives.Uninit];
     Natives.events := [] |}.
Definition ragged_clip : Natives.track_array_qvvf quatf vector4f :=
  [track0; take 2 track1].

End Fixture.

(** ** The rtm quaternion, with real lanes *)

Module Rtm.

(** Modelled from the spec: rtm::quatf is declared in the rtm library.  A
    rotation is a quaternion of four lanes; the lanes are real numbers
    here, so the rounding of the 32-bit floats of the code is left out. *)
Record quatf := Quat { qx : R; qy : R; qz : R; qw : R }.


(** The squared length and the length of a quaternion. *)
Definition quat_length_squared (q : quatf) : R :=
  (qx q * qx q + qy q * qy q + qz q * qz q + qw q * qw q)%R.

Definition quat_length (q : quatf) : R := sqrt (quat_length_squared q).

(** Modelled from the spec: rtm::quat_normalize is declared in the rtm
    library.  The rotation is "re-normalized before output": every lane is
    multiplied by the inverse of the quaternion's length.  No lane is
    inspected first, a zero quaternion is scaled like any other. *)
Definition quat_normalize (q : quatf) : quatf :=
  let inv_len := (/ quat_length q)%R in
  Quat (qx q * inv_len) (qy q * inv_len) (qz q * inv_len) (qw q * inv_len).

(** Modelled from the spec: FQuat, FVector, QuatCast and VectorCast are
    declared in ACLDecompress.h and in the host's headers.  The casts copy
    lanes: four for a rotation, the first three for a vector. *)
Record FQuat := HostQuat { X : R; Y : R; Z : R; W : R }.

Definition vector4f : Type := R * R * R * R.
Definition FVector : Type := R * R * R.

Definition QuatCast (q : quatf) : FQuat :=
  HostQuat (qx q) (qy q) (qz q) (qw q).

Definition VectorCast (v : vector4f) : FVector :=
  let '(x, y, z, _) := v in (x, y, z).



Definition convert :=
  Natives.nConvertACLTrack quat_normalize QuatCast VectorCast.





End Rtm.

(** * Facts about the converter *)

Section NativesFacts.
Import Natives.

Context {quatf vector4f FQuat FVector : Type}.
Variable quat_normalize : quatf → quatf.
Variable QuatCast : quatf → FQuat.
Variable VectorCast : vector4f → FVector.

Local Abbreviation mem := (Natives.mem FQuat FVector).
Local Abbreviation cell := (Natives.cell FQuat FVector).
Local Abbreviation M := (Natives.M FQuat FVector).
Local Abbreviation track := (list (Natives.qvvf quatf vector4f)).
Local Abbreviation convert := (nConvertACLTrack quat_normalize QuatCast VectorCast).
Local Abbreviation wtrack := (write_track quat_normalize QuatCast VectorCast).

Implicit Types (h : list (list cell)) (m : mem) (b i k n : nat).

Lemma for_range_snoc (body : nat → M ()) n i m :
  for_range i (S n) body m = (for_range i n body ;; body (i + n)) m.
Proof.
  revert i m. induction n as [|n IH]; intros i m.
  - simpl. unfold mbind, M_bind, mret, M_ret. rewrite Nat.add_0_r.
    destruct (body i m) as [[[] m']|]; reflexivity.
  - change (for_range i (S (S n)) body m)
      with ((body i ;; for_range (S i) (S n) body) m).
    unfold mbind, M_bind at 1.
    destruct (body i m) as [[[] m1]|] eqn:E.
    + rewrite IH. simpl. unfold mbind, M_bind. rewrite E.
      replace (i + S n) with (S i + n) by lia. reflexivity.
    + simpl. unfold mbind, M_bind. rewrite E. reflexivity.
Qed.

Lemma bind_done {A B} (c : M A) (k : A → M B) m a m' :
  c m = Some (a, m') → (c ≫= k) m = k a m'.
Proof. intros H. unfold mbind, M_bind. by rewrite H. Qed.

Lemma length_fill (vals blk : list cell) :
  length vals ≤ length blk → length (fill vals blk) = length blk.
Proof. intros H. unfold fill. rewrite length_app, length_drop. lia. Qed.

Lemma fill_step {A} (f : A → cell) (t : list A) (blk : list cell) k s :
  t !! k = Some s → k < length blk →
  <[k := f s]> (fill (f <$> take k t) blk) = fill (f <$> take (S k) t) blk.
Proof.
  intros Hs Hk. pose proof (lookup_lt_Some _ _ _ Hs) as Hlt.
  assert (Hk0 : length (f <$> take k t) = k)
    by (rewrite length_fmap, length_take; lia).
  assert (Hk1 : length (f <$> take (S k) t) = S k)
    by (rewrite length_fmap, length_take; lia).
  unfold fill. rewrite Hk0, Hk1.
  rewrite insert_app_r_alt by lia. rewrite Hk0, Nat.sub_diag.
  destruct (lookup_lt_is_Some_2 blk k Hk) as [x Hx].
  rewrite (drop_S _ _ _ Hx), (take_S_r _ _ _ Hs), fmap_app.
  rewrite <- app_assoc. reflexivity.
Qed.

Lemma lookup_alter_Some h b blk (g : list cell → list cell) :
  h !! b = Some blk → alter g b h = <[b := g blk]> h.
Proof.
  intros Hb. apply list_eq. intros j.
  destruct (decide (b = j)) as [<-|Hne].
  - rewrite list_lookup_alter_eq, Hb.
    rewrite list_lookup_insert_eq by (by eapply lookup_lt_Some). reflexivity.
  - rewrite list_lookup_alter_ne, list_lookup_insert_ne by done. reflexivity.
Qed.

(** One sample loop, stopped after [k] rounds. *)
Lemma sample_loop_prefix (f : qvvf quatf vector4f → cell) (t : track)
    b k h ev blk :
  h !! b = Some blk → k ≤ length t → k ≤ length blk →
  for_range 0 k (λ sampleIndex, s ← index t sampleIndex;
                                store b sampleIndex (f s)) (Mem h ev)
  = Some ((), Mem (<[b := fill (f <$> take k t) blk]> h) ev).
Proof.
  intros Hb. induction k as [|k IH]; intros Ht Hblk.
  - simpl. unfold mret, M_ret, fill. simpl. rewrite drop_0.
    rewrite list_insert_id by done. reflexivity.
  - rewrite for_range_snoc. unfold mbind at 1, M_bind at 1.
    rewrite IH by lia. simpl.
    destruct (lookup_lt_is_Some_2 t k) as [s Hs]; [lia|].
    unfold mbind, M_bind, index, store. rewrite Hs. simpl.
    rewrite list_lookup_insert_eq by (by eapply lookup_lt_Some).
    rewrite length_fill by (rewrite length_fmap, length_take; lia).
    rewrite decide_True by lia.
    rewrite list_insert_insert_eq, fill_step by (done || lia).
    reflexivity.
Qed.

(** One whole sample loop over a track of [n] samples. *)
Lemma sample_loop (f : qvvf quatf vector4f → cell) (t : track) b n h ev :
  length t = n → room h n b →
  for_range 0 n (λ sampleIndex, s ← index t sampleIndex;
                                store b sampleIndex (f s)) (Mem h ev)
  = Some ((), Mem (alter (fill (f <$> t)) b h) ev).
Proof.
  unfold room. intros Ht Hroom. destruct (h !! b) as [blk|] eqn:Hb; [|done].
  rewrite (sample_loop_prefix f t b n h ev blk) by (done || lia).
  rewrite <- Ht, firstn_all. by rewrite (lookup_alter_Some h b blk).
Qed.

Lemma room_alter_fill h n b b' (vals : list cell) :
  length vals ≤ n → room h n b' → room (alter (fill vals) b h) n b'.
Proof.
  unfold room. intros Hv. destruct (decide (b = b')) as [->|Hne].
  - rewrite list_lookup_alter_eq.
    destruct (h !! b') as [blk|]; simpl; [|done].
    intros Hn. rewrite length_fill; lia.
  - by rewrite list_lookup_alter_ne.
Qed.

Lemma room_write_track h n bp br bs b (t : track) :
  length t = n → room h n b → room (wtrack bp br bs h t) n b.
Proof.
  intros Ht Hb. unfold write_track.
  repeat apply room_alter_fill; rewrite ?length_fmap; (lia || done).
Qed.

(** The three sample loops of one round of the track loop. *)
Lemma track_round (t : track) n bp br bs h ev :
  length t = n → room h n bp → room h n br → room h n bs →
  (for_range 0 n (λ sampleIndex, s ← index t sampleIndex;
      store br sampleIndex (rotation_key quat_normalize QuatCast s));;
   for_range 0 n (λ sampleIndex, s ← index t sampleIndex;
      store bp sampleIndex (position_key VectorCast s));;
   for_range 0 n (λ sampleIndex, s ← index t sampleIndex;
      store bs sampleIndex (scale_key VectorCast s))) (Mem h ev)
  = Some ((), Mem (wtrack bp br bs h t) ev).
Proof.
  intros Ht Hp Hr Hs. unfold mbind at 1, M_bind at 1.
  rewrite (sample_loop _ t br n) by done.
  unfold mbind at 1, M_bind at 1.
  assert (Hlen : ∀ f : qvvf quatf vector4f → cell, length (f <$> t) ≤ n)
    by (intros f; rewrite length_fmap; lia).
  rewrite (sample_loop _ t bp n);
    [|done|apply room_alter_fill; [apply Hlen|done]].
  rewrite (sample_loop _ t bs n);
    [|done|do 2 (apply room_alter_fill; [apply Hlen|]); done].
  reflexivity.
Qed.

(** The track loop, stopped after [k] rounds. *)
Lemma track_loop_prefix (tracks : list track) n bp br bs k h ev :
  Forall (λ t : track, length t = n) tracks →
  room h n bp → room h n br → room h n bs → k ≤ length tracks →
  for_range 0 k (λ trackIndex,
    t ← index tracks trackIndex;
    for_range 0 n (λ sampleIndex, s ← index t sampleIndex;
      store br sampleIndex (rotation_key quat_normalize QuatCast s));;
    for_range 0 n (λ sampleIndex, s ← index t sampleIndex;
      store bp sampleIndex (position_key VectorCast s));;
    for_range 0 n (λ sampleIndex, s ← index t sampleIndex;
      store bs sampleIndex (scale_key VectorCast s))) (Mem h ev)
  = Some ((), Mem (foldl (wtrack bp br bs) h (take k tracks)) ev)
  ∧ ∀ b, room h n b → room (foldl (wtrack bp br bs) h (take k tracks)) n b.
Proof.
  intros Hall Hp Hr Hs. induction k as [|k IH]; intros Hk.
  - split; [reflexivity|]. by rewrite take_0.
  - destruct IH as [IH Hroom]; [lia|].
    destruct (lookup_lt_is_Some_2 tracks k) as [t Ht]; [lia|].
    assert (Hlen : length t = n)
      by (by eapply (Forall_lookup_1 _ _ _ _ Hall Ht)).
    rewrite (take_S_r _ _ _ Ht), foldl_app. split.
    + rewrite for_range_snoc. unfold mbind at 1, M_bind at 1. rewrite IH.
      cbn [Nat.add foldl]. unfold mbind at 1, M_bind at 1, index at 1.
      rewrite Ht. apply track_round; auto.
    + intros b Hb. cbn [foldl]. apply room_write_track; auto.
Qed.

Lemma or_malloc_run (p : pointer) n m :
  or_malloc p n m = Some (resolve_buffer p n m).
Proof. destruct p; reflexivity. Qed.

Lemma room_lt h n b : room h n b → b < length h.
Proof.
  unfold room. destruct (h !! b) eqn:E; [|done].
  intros _. by eapply lookup_lt_Some.
Qed.

Lemma resolve_keeps (p : pointer) n m b :
  room (heap m) n b → room (heap (resolve_buffer p n m).2) n b.
Proof.
  destruct p as [b0|]; [done|]. intros Hb. pose proof (room_lt _ _ _ Hb).
  unfold room in *. simpl. by rewrite lookup_app_l.
Qed.

Lemma resolve_room (p : pointer) n m :
  usable m n p →
  room (heap (resolve_buffer p n m).2) n (resolve_buffer p n m).1.
Proof.
  destruct p as [b0|]; [done|]. intros _. unfold room. simpl.
  rewrite list_lookup_middle by done. by rewrite length_replicate.
Qed.

Lemma resolve_fresh n m b :
  room (heap m) n b → b ≠ (resolve_buffer None n m).1.
Proof. intros Hb%room_lt. simpl. lia. Qed.

Lemma resolve_events (p : pointer) n m :
  ∃ new, events (resolve_buffer p n m).2 = events m ++ new
         ∧ length new = absent p
         ∧ Forall (λ e, ∃ b, e = EvAllocate CRuntimeMalloc b n) new.
Proof.
  destruct p as [b0|]; simpl.
  - exists []. by rewrite app_nil_r.
  - eexists [_]. split_and!; [done..|]. repeat constructor. by eexists.
Qed.

(** The converter on a clip with samples: three buffers are settled, the
    track loop runs over every track, and control leaves the body without
    a [return]. *)
Lemma convert_run (tracks : list track) trackIndex
    (outPosKeys outRotKeys outScaleKeys : pointer) m :
  let n := get_num_samples_per_track tracks in
  let pos := resolve_buffer outPosKeys n m in
  let rot := resolve_buffer outRotKeys n pos.2 in
  let scl := resolve_buffer outScaleKeys n rot.2 in
  n ≠ 0 → uniform tracks →
  usable m n outPosKeys → usable m n outRotKeys → usable m n outScaleKeys →
  convert tracks trackIndex outPosKeys outRotKeys outScaleKeys m
  = Some (FellOffEnd,
          Mem (foldl (wtrack pos.1 rot.1 scl.1) (heap scl.2) tracks)
              (events scl.2)).
Proof.
  intros n P R S Hn Hu HP HR HS.
  assert (HrP : room (heap S.2) n P.1)
    by (do 2 apply resolve_keeps; by apply resolve_room).
  assert (HrR : room (heap S.2) n R.1).
  { apply resolve_keeps, resolve_room.
    destruct outRotKeys; [|done]. by apply resolve_keeps. }
  assert (HrS : room (heap S.2) n S.1).
  { apply resolve_room.
    destruct outScaleKeys; [|done]. by do 2 apply resolve_keeps. }
  unfold nConvertACLTrack. fold n. rewrite decide_False by done.
  unfold mbind at 1, M_bind at 1. rewrite or_malloc_run. fold P.
  destruct P as [bp m1] eqn:EP.
  unfold mbind at 1, M_bind at 1. rewrite or_malloc_run.
  change (resolve_buffer outRotKeys n m1) with R.
  destruct R as [br m2] eqn:ER.
  unfold mbind at 1, M_bind at 1. rewrite or_malloc_run.
  change (resolve_buffer outScaleKeys n m2) with S.
  destruct S as [bs [h3 ev3]] eqn:ES.
  unfold mbind at 1, M_bind at 1. simpl in HrP, HrR, HrS.
  destruct (track_loop_prefix tracks n bp br bs (length tracks) h3 ev3)
    as [Hrun _]; [done..|].
  rewrite firstn_all in Hrun.
  exact (bind_done _ (λ _, mret FellOffEnd) _ _ _ Hrun).
Qed.

Lemma resolved_apart (pP pR pS : pointer) n m :
  let pos := resolve_buffer pP n m in
  let rot := resolve_buffer pR n pos.2 in
  let scl := resolve_buffer pS n rot.2 in
  usable m n pP → usable m n pR → usable m n pS →
  apart pP pR → apart pP pS → apart pR pS →
  pos.1 ≠ rot.1 ∧ pos.1 ≠ scl.1 ∧ rot.1 ≠ scl.1.
Proof.
  intros pos rot scl HP HR HS.
  destruct pP as [a|], pR as [b|], pS as [c|]; simpl in *;
    repeat match goal with
           | H : room _ _ _ |- _ => apply room_lt in H
           end;
    rewrite ?length_app; simpl; intros; split_and!; (done || lia).
Qed.

Lemma foldl_room (tracks : list track) n bp br bs h b :
  Forall (λ t : track, length t = n) tracks →
  room h n b → room (foldl (wtrack bp br bs) h tracks) n b.
Proof.
  intros Hall. revert h. induction Hall as [|t ts Ht _ IH]; intros h Hb.
  - done.
  - simpl. by apply IH, room_write_track.
Qed.

(** After one round, slot [i] of each buffer holds sample [i] of the
    track of that round. *)
Lemma write_track_cells (t : track) n bp br bs h ev i s :
  length t = n → room h n bp → room h n br → room h n bs →
  bp ≠ br → bp ≠ bs → br ≠ bs → t !! i = Some s →
  cell_at (Mem (wtrack bp br bs h t) ev) br i
    = Some (rotation_key quat_normalize QuatCast s)
  ∧ cell_at (Mem (wtrack bp br bs h t) ev) bp i
    = Some (position_key VectorCast s)
  ∧ cell_at (Mem (wtrack bp br bs h t) ev) bs i
    = Some (scale_key VectorCast s).
Proof.
  intros Ht Hp Hr Hs Hpr Hps Hrs Hi.
  pose proof (lookup_lt_Some _ _ _ Hi) as Hlt.
  unfold room in *. unfold cell_at, write_track. simpl.
  destruct (h !! bp) as [blkp|] eqn:Ep; [|done].
  destruct (h !! br) as [blkr|] eqn:Er; [|done].
  destruct (h !! bs) as [blks|] eqn:Es; [|done].
  split_and!.
  - rewrite !list_lookup_alter_ne, list_lookup_alter_eq, Er by done. simpl.
    unfold fill. rewrite lookup_app_l by (by rewrite length_fmap).
    by rewrite list_lookup_fmap, Hi.
  - rewrite list_lookup_alter_ne, list_lookup_alter_eq by done.
    rewrite list_lookup_alter_ne, Ep by done. simpl.
    unfold fill. rewrite lookup_app_l by (by rewrite length_fmap).
    by rewrite list_lookup_fmap, Hi.
  - rewrite list_lookup_alter_eq, !list_lookup_alter_ne, Es by done. simpl.
    unfold fill. rewrite lookup_app_l by (by rewrite length_fmap).
    by rewrite list_lookup_fmap, Hi.
Qed.

(** After the whole track loop the buffers hold the last track. *)
Lemma final_cells (tracks : list track) (last : track) n bp br bs h ev i s :
  Forall (λ t : track, length t = n) tracks →
  tracks !! (length tracks - 1) = Some last →
  room h n bp → room h n br → room h n bs →
  bp ≠ br → bp ≠ bs → br ≠ bs → last !! i = Some s →
  cell_at (Mem (foldl (wtrack bp br bs) h tracks) ev) br i
    = Some (rotation_key quat_normalize QuatCast s)
  ∧ cell_at (Mem (foldl (wtrack bp br bs) h tracks) ev) bp i
    = Some (position_key VectorCast s)
  ∧ cell_at (Mem (foldl (wtrack bp br bs) h tracks) ev) bs i
    = Some (scale_key VectorCast s).
Proof.
  intros Hall Hlast Hp Hr Hs Hpr Hps Hrs Hi.
  pose proof (lookup_lt_Some _ _ _ Hlast) as Hlt.
  assert (Hsplit : tracks = take (length tracks - 1) tracks ++ [last]).
  { rewrite <- (take_S_r _ _ _ Hlast).
    replace (S (length tracks - 1)) with (length tracks) by lia.
    by rewrite firstn_all. }
  rewrite Hsplit, foldl_app. cbn [foldl].
  assert (Hinit : Forall (λ t : track, length t = n)
                         (take (length tracks - 1) tracks))
    by (by apply Forall_take).
  apply (write_track_cells last n); try done.
  - by eapply (Forall_lookup_1 _ _ _ _ Hall Hlast).
  - by apply foldl_room.
  - by apply foldl_room.
  - by apply foldl_room.
Qed.

(** The two wrappers hand back the library result as text: the empty
    string when the library reports no error. *)
Lemma wrappers_return_empty_on_success {compressed_tracks : Type}
    (is_valid : compressed_tracks → bool → error_result)
    (convert_track_list :
       allocator → compressed_tracks
       → error_result * track_array_qvvf quatf vector4f)
    (tracks : compressed_tracks) (checkHash : bool) :
  (is_valid tracks checkHash = None →
   nCompressedTracks_IsValid is_valid tracks checkHash = EmptyString)
  ∧ ((convert_track_list ACLAllocatorImpl tracks).1 = None →
     (nConvertTrackList convert_track_list tracks).1 = EmptyString).
Proof.
  unfold nCompressedTracks_IsValid, nConvertTrackList.
  split; intros H; cbn [fst]; rewrite H; reflexivity.
Qed.

(** ** The claims about [nConvertACLTrack] *)

(** C4. A clip whose samples-per-track count is 0 makes the converter return
    the non-empty message "Clip has no samples"; the memory it leaves is
    the memory it was given: no block was allocated and no slot written. *)
Theorem empty_clip_is_rejected (tracks : list track) trackIndex
    (outPosKeys outRotKeys outScaleKeys : pointer) m :
  get_num_samples_per_track tracks = 0 →
  convert tracks trackIndex outPosKeys outRotKeys outScaleKeys m
    = Some (Returned "Clip has no samples", m)
  ∧ "Clip has no samples"%string ≠ ""%string.
Proof.
  intros Hn. unfold nConvertACLTrack. rewrite Hn. split; [reflexivity|done].
Qed.

(** C6. On a clip with samples the call runs to the end of the body, and
    for every sample index [k] below numSamples the rotation in slot [k],
    the translation in slot [k] and the scale in slot [k] are all taken from
    sample [k] of one and the same track of the clip. *)
Theorem outputs_are_sample_aligned (tracks : list track) trackIndex
    (outPosKeys outRotKeys outScaleKeys : pointer) m :
  let n := get_num_samples_per_track tracks in
  let pos := resolve_buffer outPosKeys n m in
  let rot := resolve_buffer outRotKeys n pos.2 in
  let scl := resolve_buffer outScaleKeys n rot.2 in
  0 < n → uniform tracks →
  usable m n outPosKeys → usable m n outRotKeys → usable m n outScaleKeys →
  apart outPosKeys outRotKeys → apart outPosKeys outScaleKeys →
  apart outRotKeys outScaleKeys →
  ∃ m' (t : track),
    convert tracks trackIndex outPosKeys outRotKeys outScaleKeys m
      = Some (FellOffEnd, m')
    ∧ t ∈ tracks
    ∧ ∀ k, k < n → ∃ s,
        t !! k = Some s
        ∧ cell_at m' rot.1 k = Some (rotation_key quat_normalize QuatCast s)
        ∧ cell_at m' pos.1 k = Some (position_key VectorCast s)
        ∧ cell_at m' scl.1 k = Some (scale_key VectorCast s).
Proof.
  intros n pos rot scl Hn Hu HP HR HS Hpr Hps Hrs.
  destruct (resolved_apart outPosKeys outRotKeys outScaleKeys n m)
    as (Hne1 & Hne2 & Hne3); [done..|].
  fold pos rot scl in Hne1, Hne2, Hne3.
  assert (Hlen : 0 < length tracks)
    by (destruct tracks; [simpl in n; lia | simpl; lia]).
  destruct (lookup_lt_is_Some_2 tracks (length tracks - 1)) as [t Ht]; [lia|].
  eexists _, t. split; [by apply convert_run; [lia|..]|].
  split; [by eapply list_elem_of_lookup_2|].
  intros k Hk.
  assert (Htlen : length t = n) by (by eapply (Forall_lookup_1 _ _ _ _ Hu Ht)).
  destruct (lookup_lt_is_Some_2 t k) as [s Hs]; [lia|].
  exists s. split; [done|].
  apply (final_cells tracks t n); try done.
  - do 2 apply resolve_keeps. by apply resolve_room.
  - apply resolve_keeps, resolve_room.
    destruct outRotKeys; [|done]. by apply resolve_keeps.
  - apply resolve_room.
    destruct outScaleKeys; [|done]. by do 2 apply resolve_keeps.
Qed.

(** C10. With caller buffers in place, two in-range values of trackIndex
    give the same run, memory included: whatever index is asked for, slot
    [k] of each buffer ends up holding sample [k] of the last track, the
    one at index numTracks - 1. *)
Theorem trackIndex_has_no_influence (tracks : list track) i j bp br bs m :
  let n := get_num_samples_per_track tracks in
  0 < n → uniform tracks →
  i < get_num_tracks tracks → j < get_num_tracks tracks →
  room (heap m) n bp → room (heap m) n br → room (heap m) n bs →
  bp ≠ br → bp ≠ bs → br ≠ bs →
  convert tracks i (Some bp) (Some br) (Some bs) m
    = convert tracks j (Some bp) (Some br) (Some bs) m
  ∧ ∃ (last : track) m',
      tracks !! (get_num_tracks tracks - 1) = Some last
      ∧ convert tracks i (Some bp) (Some br) (Some bs) m
          = Some (FellOffEnd, m')
      ∧ ∀ k, k < n → ∃ s,
          last !! k = Some s
          ∧ cell_at m' br k = Some (rotation_key quat_normalize QuatCast s)
          ∧ cell_at m' bp k = Some (position_key VectorCast s)
          ∧ cell_at m' bs k = Some (scale_key VectorCast s).
Proof.
  intros n Hn Hu Hi Hj Hp Hr Hs Hpr Hps Hrs.
  unfold get_num_tracks, track_qvvf in *.
  pose proof (convert_run tracks i (Some bp) (Some br) (Some bs) m) as Ri.
  pose proof (convert_run tracks j (Some bp) (Some br) (Some bs) m) as Rj.
  assert (Hn0 : n ≠ 0) by lia.
  cbn zeta in Ri, Rj.
  specialize (Ri Hn0 Hu Hp Hr Hs). specialize (Rj Hn0 Hu Hp Hr Hs).
  simpl in Ri, Rj. fold n in Ri, Rj.
  split; [by rewrite Ri, Rj|].
  destruct (lookup_lt_is_Some_2 tracks (length tracks - 1)) as [t Ht]; [lia|].
  eexists t, _. split; [done|]. split; [exact Ri|].
  intros k Hk.
  assert (Htlen : length t = n) by (by eapply (Forall_lookup_1 _ _ _ _ Hu Ht)).
  destruct (lookup_lt_is_Some_2 t k) as [s Hsk]; [lia|].
  exists s. split; [done|]. by apply (final_cells tracks t n).
Qed.

(** C7, as the code has it. A request through [nAllocate] is served by the
    process-wide [ACLAllocatorImpl] and a release through [nDeallocate] goes
    back to it; the buffers [nConvertACLTrack] allocates for absent
    arguments come from [malloc] instead: one block of numSamples elements
    per absent argument, and no other allocator traffic. *)
Theorem allocator_of_each_request (tracks : list track) trackIndex
    (outPosKeys outRotKeys outScaleKeys : pointer) m (size alignment b : nat) :
  let n := get_num_samples_per_track tracks in
  0 < n → uniform tracks →
  usable m n outPosKeys → usable m n outRotKeys → usable m n outScaleKeys →
  (∃ m' new,
     convert tracks trackIndex outPosKeys outRotKeys outScaleKeys m
       = Some (FellOffEnd, m')
     ∧ events m' = events m ++ new
     ∧ length new = absent outPosKeys + absent outRotKeys + absent outScaleKeys
     ∧ Forall (λ e, ∃ b', e = EvAllocate CRuntimeMalloc b' n) new)
  ∧ (∃ b' m',
       nAllocate size alignment m = Some (Some b', m')
       ∧ events m' = events m ++ [EvAllocate ACLAllocatorImpl b' size])
  ∧ (∃ m',
       nDeallocate (Some b) size m = Some ((), m')
       ∧ events m' = events m ++ [EvDeallocate ACLAllocatorImpl b]).
Proof.
  intros n Hn Hu HP HR HS. split_and!.
  - pose proof (convert_run tracks trackIndex outPosKeys outRotKeys
                            outScaleKeys m) as Hrun.
    assert (Hn0 : n ≠ 0) by lia.
    cbn zeta in Hrun. specialize (Hrun Hn0 Hu HP HR HS). fold n in Hrun.
    rewrite Hrun. clear Hrun.
    destruct (resolve_events outPosKeys n m) as (e1 & E1 & L1 & F1).
    destruct (resolve_events outRotKeys n (resolve_buffer outPosKeys n m).2)
      as (e2 & E2 & L2 & F2).
    destruct (resolve_events outScaleKeys n
                (resolve_buffer outRotKeys n
                   (resolve_buffer outPosKeys n m).2).2)
      as (e3 & E3 & L3 & F3).
    eexists _, (e1 ++ e2 ++ e3). split; [reflexivity|]. simpl.
    rewrite E3, E2, E1, <- !app_assoc, !length_app. split_and!; [done|lia|].
    by repeat apply Forall_app_2.
  - by eexists _, _.
  - by eexists.
Qed.

End NativesFacts.

(** * Facts about the decoder session *)

Section SessionFacts.
Import Session.

Context {CompressedTrackSet Transform : Type}.
Variable num_tracks : CompressedTrackSet → nat.
Variable oracle :
  CompressedTrackSet → nat → Z → sample_rounding_policy → Transform.

Local Abbreviation writer := (OutputWriterBatch Transform).
Local Abbreviation context := (Context CompressedTrackSet).

Implicit Types (a : list Transform) (ds : list (nat * Transform)).
Implicit Types (w : writer) (ctx : context) (ts : CompressedTrackSet).

Lemma length_foldl_write a ds : length (foldl write_slot a ds) = length a.
Proof.
  revert a. induction ds as [|d ds IH]; intros a; [done|].
  simpl. rewrite IH. unfold write_slot. apply length_insert.
Qed.

(** What a slot holds once a list of deliveries has been written. *)
Lemma foldl_write_lookup a ds slot :
  foldl write_slot a ds !! slot =
    match last_delivery slot ds with
    | Some t => if decide (slot < length a) then Some t else None
    | None => a !! slot
    end.
Proof.
  revert a. induction ds as [|d ds IH]; intros a; [done|].
  simpl. rewrite IH. unfold write_slot.
  rewrite (length_insert a (d.1) (d.2)).
  destruct (last_delivery slot ds) as [t|]; [done|].
  destruct (decide (d.1 = slot)) as [<-|Hne].
  - destruct (decide (d.1 < length a)).
    + by apply list_lookup_insert_eq.
    + rewrite list_insert_ge by lia. apply lookup_ge_None. lia.
  - by apply list_lookup_insert_ne.
Qed.

(** Writing the same deliveries a second time changes nothing. *)
Lemma foldl_write_twice a ds :
  foldl write_slot (foldl write_slot a ds) ds = foldl write_slot a ds.
Proof.
  apply list_eq. intros slot.
  rewrite (foldl_write_lookup (foldl write_slot a ds)), length_foldl_write.
  rewrite (foldl_write_lookup a).
  destruct (last_delivery slot ds) eqn:E; rewrite ?E; reflexivity.
Qed.

Lemma resolve_ext w w' i :
  trackToAtomsMap w = trackToAtomsMap w' →
  length (atoms w) = length (atoms w') →
  resolve w i = resolve w' i.
Proof. unfold resolve. by intros -> ->. Qed.

Lemma deliveries_ext ts t p w w' i n :
  trackToAtomsMap w = trackToAtomsMap w' →
  length (atoms w) = length (atoms w') →
  deliveries oracle ts t p w i n = deliveries oracle ts t p w' i n.
Proof.
  intros Hm Hl. revert i. induction n as [|n IH]; intros i; [done|].
  simpl. rewrite (resolve_ext w w' i Hm Hl), IH. reflexivity.
Qed.

Lemma deliveries_length ts t p w i n ds :
  deliveries oracle ts t p w i n = Ok ds → length ds = n.
Proof.
  revert i ds. induction n as [|n IH]; intros i ds; simpl.
  - by intros [= <-].
  - destruct (resolve w i); [|done].
    destruct (deliveries oracle ts t p w (S i) n) as [ds'|] eqn:E; [|done].
    simpl. intros [= <-]. simpl. f_equal. by eapply IH.
Qed.

(** Delivery number [k] of a batch is that of track [i + k]: its slot and
    the oracle's transform for it. *)
Lemma deliveries_lookup ts t p w i n ds k :
  deliveries oracle ts t p w i n = Ok ds → k < n →
  ∃ slot, resolve w (i + k) = Some slot
          ∧ ds !! k = Some (slot, oracle ts (i + k) t p).
Proof.
  revert i ds k. induction n as [|n IH]; intros i ds k; simpl; [lia|].
  destruct (resolve w i) as [slot|] eqn:Er; [|done].
  destruct (deliveries oracle ts t p w (S i) n) as [ds'|] eqn:E; [|done].
  simpl. intros [= <-] Hk. destruct k as [|k].
  - exists slot. by rewrite Nat.add_0_r.
  - destruct (IH (S i) ds' k E) as (slot' & Hr & Hl); [lia|].
    exists slot'. replace (i + S k) with (S i + k) by lia. done.
Qed.

Lemma last_delivery_none ds slot :
  (∀ k d, ds !! k = Some d → d.1 ≠ slot) → last_delivery slot ds = None.
Proof.
  induction ds as [|d ds IH]; intros H; [done|]. simpl.
  rewrite IH by (intros k d' Hk; apply (H (S k) d' Hk)).
  rewrite decide_False; [done|]. apply (H 0 d). done.
Qed.

Lemma last_delivery_at ds i slot t :
  ds !! i = Some (slot, t) →
  (∀ k d, k ≠ i → ds !! k = Some d → d.1 ≠ slot) →
  last_delivery slot ds = Some t.
Proof.
  revert i. induction ds as [|d ds IH]; intros i Hi Hother; [done|].
  destruct i as [|i]; simpl in *.
  - injection Hi as ->. rewrite last_delivery_none.
    + by rewrite decide_True.
    + intros k d' Hk. by apply (Hother (S k) d').
  - rewrite (IH i Hi); [done|].
    intros k d' Hne Hk. apply (Hother (S k) d'); [lia|done].
Qed.

(** ** The claims about seeking and decoding *)

(** C8. Seeking twice is idempotent: on any context (bound to a track set
    or not), for every sample time [T] and rounding policy [P], the
    sequence seek(T, P); decompressTracks and the sequence seek(T, P);
    decompressTracks; seek(T, P); decompressTracks, run on the same
    context, end with the same result, output array included -- whether
    the second decode writes over the array of the first or into an array
    of its own. *)
Theorem seek_twice_is_idempotent (T : Z) (P : sample_rounding_policy) ctx w :
  seek_decode num_tracks oracle T P ctx w
    = seek_decode_twice num_tracks oracle T P ctx w
  ∧ seek_decode num_tracks oracle T P ctx w
    = seek_decode_again num_tracks oracle T P ctx w.
Proof.
  unfold seek_decode, seek_decode_twice, seek_decode_again, seek,
    getBoundTrackSet.
  destruct (bound ctx) as [ts|]; [|done]. simpl.
  unfold decompressTracks, getBoundTrackSet. simpl.
  destruct (deliveries oracle ts T P w 0 (num_tracks ts)) as [ds|e] eqn:E;
    [|done].
  simpl. split; [|reflexivity].
  rewrite (deliveries_ext ts T P _ w); simpl;
    [|done|by rewrite length_foldl_write].
  rewrite E. simpl. by rewrite foldl_write_twice.
Qed.

(** C9. On a context bound to a track set, at its current time, for every
    track index [i] below the track count: the transform the single-track
    decode hands to its writer is the transform the batch decode delivers
    for track [i], addressed to the slot mapped to track [i]; and when no
    other track is mapped to that slot, it is what the slot holds after the
    batch call. *)
Theorem single_matches_batch ctx ts i w w' (single : OutputWriterSingle Transform)
    slot :
  bound ctx = Some ts → i < num_tracks ts →
  decompressTracks num_tracks oracle ctx w = Ok w' →
  trackToAtomsMap w !! i = Some slot →
  ∃ t ds,
    decompressTrack num_tracks oracle ctx i single = Ok (SingleWriter t)
    ∧ deliveries oracle ts (time ctx) (policy ctx) w 0 (num_tracks ts) = Ok ds
    ∧ ds !! i = Some (slot, t)
    ∧ ((∀ j, j < num_tracks ts → trackToAtomsMap w !! j = Some slot → j = i) →
       atoms w' !! slot = Some t).
Proof.
  intros Hb Hi Hbatch Hslot.
  unfold decompressTracks, decompressTrack, getBoundTrackSet in *.
  rewrite Hb in *. simpl in *.
  destruct (deliveries oracle ts (time ctx) (policy ctx) w 0 (num_tracks ts))
    as [ds|e] eqn:E; [|done].
  simpl in Hbatch. injection Hbatch as <-. simpl.
  destruct (deliveries_lookup _ _ _ _ _ _ _ i E Hi) as (slot' & Hr & Hl).
  simpl in Hr, Hl.
  assert (Hres : slot' = slot ∧ slot < length (atoms w)).
  { unfold resolve in Hr. rewrite Hslot in Hr. simpl in Hr.
    case_decide; [|done]. by injection Hr as <-. }
  destruct Hres as [-> Hlt].
  exists (oracle ts i (time ctx) (policy ctx)), ds.
  rewrite decide_True by done. split_and!; [done..|].
  intros Hinj. rewrite foldl_write_lookup.
  rewrite (last_delivery_at ds i slot (oracle ts i (time ctx) (policy ctx)));
    [by rewrite decide_True|done|].
  intros k d Hne Hk Hd.
  assert (Hkn : k < num_tracks ts).
  { rewrite <- (deliveries_length _ _ _ _ _ _ _ E). by eapply lookup_lt_Some. }
  destruct (deliveries_lookup _ _ _ _ _ _ _ k E Hkn) as (sk & Hrk & Hlk).
  simpl in Hrk, Hlk. rewrite Hlk in Hk. injection Hk as <-. simpl in Hd.
  subst sk. apply Hne, Hinj; [done|].
  unfold resolve in Hrk.
  destruct (trackToAtomsMap w !! k) as [s'|]; simpl in Hrk; [|done].
  case_decide; [|done]. by injection Hrk as ->.
Qed.

End SessionFacts.

(** * The claims on the fixtures *)

Section Fixtures.
Import Natives Fixture.

Local Abbreviation rot_key :=
  (@rotation_key quatf vector4f FQuat FVector quat_normalize QuatCast).
Local Abbreviation pos_key :=
  (@position_key quatf vector4f FQuat FVector VectorCast).
Local Abbreviation scl_key :=
  (@scale_key quatf vector4f FQuat FVector VectorCast).

Lemma clip_uniform : uniform clip.
Proof. repeat constructor. Qed.

(** C1. Asked for track 0 of the two-track clip, the converter runs the
    track loop over both tracks and leaves the four samples of track 1 in
    the three buffers, which differ from those of track 0. *)
Theorem track0_request_yields_track1 :
  ∃ m',
    convert clip 0 (Some 0) (Some 1) (Some 2) three_buffers
      = Some (FellOffEnd, m')
    ∧ take 4 <$> heap m' !! 0 = Some (pos_key <$> track1)
    ∧ take 4 <$> heap m' !! 1 = Some (rot_key <$> track1)
    ∧ take 4 <$> heap m' !! 2 = Some (scl_key <$> track1)
    ∧ pos_key <$> track1 ≠ pos_key <$> track0
    ∧ rot_key <$> track1 ≠ rot_key <$> track0
    ∧ scl_key <$> track1 ≠ scl_key <$> track0.
Proof.
  eexists. split; [vm_compute; reflexivity|].
  split_and!; try (vm_compute; reflexivity); vm_compute; discriminate.
Qed.

(** C2. Called without buffers on the one-sample clip, the converter takes
    three one-element blocks from [malloc] and fills them, then reaches the
    end of its body: the outcome carries no address, so the three blocks
    stay in memory with nobody holding them. *)
Theorem fresh_buffers_are_not_handed_back :
  convert tiny_clip 0 None None None no_memory
  = Some (FellOffEnd,
          {| heap := [ [VecCell (1, 2, 3)%Z];
                       [QuatCell (0, 0, 0, 1)%Z];
                       [VecCell (1, 1, 1)%Z] ];
             events := [ EvAllocate CRuntimeMalloc 0 1;
                         EvAllocate CRuntimeMalloc 1 1;
                         EvAllocate CRuntimeMalloc 2 1 ] |}).
Proof. vm_compute. reflexivity. Qed.

(** C3. On the two-track clip with all buffers supplied the extraction
    completes, and the call ends at the closing brace: no string, empty or
    not, is returned. *)
Theorem success_path_returns_no_string :
  (∃ m', convert clip 1 (Some 0) (Some 1) (Some 2) three_buffers
           = Some (FellOffEnd, m'))
  ∧ ∀ s m', convert clip 1 (Some 0) (Some 1) (Some 2) three_buffers
              ≠ Some (Returned s, m').
Proof.
  split; [eexists; vm_compute; reflexivity|].
  intros s m'. vm_compute. discriminate.
Qed.

(** C7, as stated, fails: the three blocks of the call below are served by
    [malloc], not by the adapter. *)
Lemma malloc_bypasses_the_adapter :
  ∃ m',
    convert tiny_clip 0 None None None no_memory = Some (FellOffEnd, m')
    ∧ ¬ Forall (λ e, served_by e = ACLAllocatorImpl) (events m').
Proof.
  eexists. split; [vm_compute; reflexivity|].
  intros H. apply Forall_cons_1 in H as [H _]. discriminate H.
Qed.

Ltac fixture_side :=
  first [ exact clip_uniform
        | progress (unfold usable, apart, room); simpl; (lia || done)
        | simpl; (lia || done) ].

Lemma empty_clip_is_rejected_witness :
  get_num_samples_per_track empty_clip = 0
  ∧ convert empty_clip 0 None (Some 1) None three_buffers
      = Some (Returned "Clip has no samples", three_buffers)
  ∧ "Clip has no samples"%string ≠ ""%string.
Proof.
  split; [reflexivity|].
  apply (empty_clip_is_rejected quat_normalize QuatCast VectorCast
           empty_clip 0 None (Some 1) None three_buffers).
  reflexivity.
Defined.

Lemma outputs_are_sample_aligned_witness :
  0 < get_num_samples_per_track clip ∧ uniform clip
  ∧ ∃ m' t,
      convert clip 0 (Some 0) None (Some 2) three_buffers
        = Some (FellOffEnd, m')
      ∧ t ∈ clip
      ∧ ∀ k, k < 4 → ∃ s,
          t !! k = Some s
          ∧ cell_at m' 3 k = Some (rot_key s)
          ∧ cell_at m' 0 k = Some (pos_key s)
          ∧ cell_at m' 2 k = Some (scl_key s).
Proof.
  split; [simpl; lia|]. split; [exact clip_uniform|].
  apply (outputs_are_sample_aligned quat_normalize QuatCast VectorCast
           clip 0 (Some 0) None (Some 2) three_buffers); fixture_side.
Defined.

Lemma trackIndex_has_no_influence_witness :
  0 < get_num_samples_per_track clip ∧ uniform clip
  ∧ convert clip 0 (Some 0) (Some 1) (Some 2) three_buffers
      = convert clip 1 (Some 0) (Some 1) (Some 2) three_buffers
  ∧ ∃ last m',
      clip !! 1 = Some last
      ∧ convert clip 0 (Some 0) (Some 1) (Some 2) three_buffers
          = Some (FellOffEnd, m')
      ∧ ∀ k, k < 4 → ∃ s,
          last !! k = Some s
          ∧ cell_at m' 1 k = Some (rot_key s)
          ∧ cell_at m' 0 k = Some (pos_key s)
          ∧ cell_at m' 2 k = Some (scl_key s).
Proof.
  split; [simpl; lia|]. split; [exact clip_uniform|].
  apply (trackIndex_has_no_influence quat_normalize QuatCast VectorCast
           clip 0 1 0 1 2 three_buffers); fixture_side.
Defined.

Lemma allocator_of_each_request_witness :
  0 < get_num_samples_per_track clip ∧ uniform clip
  ∧ (∃ m' new,
       convert clip 0 None (Some 1) None three_buffers = Some (FellOffEnd, m')
       ∧ events m' = events three_buffers ++ new
       ∧ length new = 2
       ∧ Forall (λ e, ∃ b', e = EvAllocate CRuntimeMalloc b' 4) new)
  ∧ (∃ b' m',
       nAllocate 64 16 three_buffers = Some (Some b', m')
       ∧ events m' = events three_buffers ++ [EvAllocate ACLAllocatorImpl b' 64])
  ∧ (∃ m',
       nDeallocate (Some 0) 4 three_buffers = Some ((), m')
       ∧ events m' = events three_buffers ++ [EvDeallocate ACLAllocatorImpl 0]).
Proof.
  split; [simpl; lia|]. split; [exact clip_uniform|].
  apply (allocator_of_each_request quat_normalize QuatCast VectorCast
           clip 0 None (Some 1) None three_buffers 64 16 0); fixture_side.
Defined.

End Fixtures.

Section SessionFixtures.
Import Session Fixture.

(** C8 on the fake oracle: both sequences end with the same four slots. *)
Example seek_twice_on_fixture :
  fake_seek_decode 7%Z Floor bound_context four_slots
    = fake_seek_decode_twice 7%Z Floor bound_context four_slots
  ∧ fake_seek_decode 7%Z Floor bound_context four_slots
    = fake_seek_decode_again 7%Z Floor bound_context four_slots
  ∧ atoms <$> (match fake_seek_decode 7%Z Floor bound_context four_slots with
               | Ok w => Some w
               | Err _ => None
               end)
    = Some [(1, 7%Z, Floor); blank; (0, 7%Z, Floor); (2, 7%Z, Floor)].
Proof. split_and!; vm_compute; reflexivity. Qed.

Lemma single_matches_batch_witness :
  ∃ t ds,
    decompressTrack fake_num_tracks fake_oracle seeked_context 1
      (SingleWriter blank) = Ok (SingleWriter t)
    ∧ deliveries fake_oracle 3 7%Z Floor four_slots 0 3 = Ok ds
    ∧ ds !! 1 = Some (0, t)
    ∧ ((∀ j, j < 3 → trackToAtomsMap four_slots !! j = Some 0 → j = 1) →
       [(1, 7%Z, Floor); blank; (0, 7%Z, Floor); (2, 7%Z, Floor)] !! 0
         = Some t).
Proof.
  apply (single_matches_batch fake_num_tracks fake_oracle seeked_context 3 1
           four_slots
           {| atoms := [(1, 7%Z, Floor); blank; (0, 7%Z, Floor); (2, 7%Z, Floor)];
              trackToAtomsMap := trackToAtomsMap four_slots |}
           (SingleWriter blank) 0).
  - reflexivity.
  - unfold fake_num_tracks. lia.
  - vm_compute. reflexivity.
  - vm_compute. reflexivity.
Defined.

End SessionFixtures.

(** * Further facts about the converter *)

Section ConverterFacts.
Import Natives.

Context {quatf vector4f FQuat FVector : Type}.
Variable quat_normalize : quatf → quatf.
Variable QuatCast : quatf → FQuat.
Variable VectorCast : vector4f → FVector.

Local Abbreviation mem := (Natives.mem FQuat FVector).
Local Abbreviation cell := (Natives.cell FQuat FVector).
Local Abbreviation M := (Natives.M FQuat FVector).
Local Abbreviation track := (list (Natives.qvvf quatf vector4f)).
Local Abbreviation convert := (nConvertACLTrack quat_normalize QuatCast VectorCast).
Local Abbreviation wtrack := (write_track quat_normalize QuatCast VectorCast).
Local Abbreviation settled := (settle quat_normalize QuatCast VectorCast).
Local Abbreviation rot_key :=
  (@rotation_key quatf vector4f FQuat FVector quat_normalize QuatCast).
Local Abbreviation pos_key :=
  (@position_key quatf vector4f FQuat FVector VectorCast).
Local Abbreviation scl_key :=
  (@scale_key quatf vector4f FQuat FVector VectorCast).

Implicit Types (h : list (list cell)) (m : mem) (b i k n : nat).

Lemma fill_fill (v1 v2 blk : list cell) :
  length v1 = length v2 → fill v2 (fill v1 blk) = fill v2 blk.
Proof.
  intros H. unfold fill. rewrite <- H, drop_app_length. reflexivity.
Qed.

Lemma drop_fill (vals blk : list cell) :
  drop (length vals) (fill vals blk) = drop (length vals) blk.
Proof. unfold fill. by rewrite drop_app_length. Qed.

(** Block by block, a round of the track loop is [settle]. *)
Lemma write_track_lookup h bp br bs (t : track) b :
  wtrack bp br bs h t !! b = settled bp br bs t b <$> h !! b.
Proof.
  unfold write_track, settle. rewrite !list_lookup_alter.
  destruct (h !! b) as [blk|] eqn:E;
    repeat (case_decide; subst; try congruence); rewrite ?E; simpl;
    rewrite ?fill_fill by (by rewrite !length_fmap); try reflexivity.
Qed.

Lemma settle_settle bp br bs (t1 t2 : track) b (blk : list cell) :
  length t1 = length t2 →
  settled bp br bs t2 b (settled bp br bs t1 b blk) = settled bp br bs t2 b blk.
Proof.
  intros H. unfold settle.
  repeat case_decide; try reflexivity;
    apply fill_fill; by rewrite !length_fmap.
Qed.

(** A later round wipes out what an earlier round wrote. *)
Lemma write_track_again h bp br bs (t1 t2 : track) :
  length t1 = length t2 →
  wtrack bp br bs (wtrack bp br bs h t1) t2 = wtrack bp br bs h t2.
Proof.
  intros H. apply list_eq. intros b. rewrite !write_track_lookup.
  destruct (h !! b) as [blk|]; simpl; [|done].
  by rewrite settle_settle.
Qed.

Lemma foldl_write_track_last (tracks : list track) (t : track) n bp br bs h :
  Forall (λ t : track, length t = n) tracks → last tracks = Some t →
  foldl (wtrack bp br bs) h tracks = wtrack bp br bs h t.
Proof.
  intros Hall. revert h.
  induction Hall as [|t0 ts Ht0 Hts IH]; intros h Hlast; [done|].
  destruct ts as [|t1 ts].
  - by injection Hlast as ->.
  - cbn [foldl]. change (foldl (wtrack bp br bs) (wtrack bp br bs h t0) (t1 :: ts)
                       = wtrack bp br bs h t).
    rewrite IH by done. apply write_track_again. rewrite Ht0. symmetry.
    assert (Hin : t ∈ t1 :: ts) by (by apply last_Some_elem_of).
    by apply (proj1 (Forall_forall _ _) Hts).
Qed.

Lemma last_track_exists (tracks : list track) :
  0 < get_num_samples_per_track tracks → ∃ t : track, last tracks = Some t.
Proof.
  destruct tracks as [|t0 ts]; simpl; [lia|]. intros _.
  apply (last_is_Some (t0 :: ts)). done.
Qed.

Lemma resolve_lookup (p : pointer) n m b (blk : list cell) :
  heap m !! b = Some blk → heap (resolve_buffer p n m).2 !! b = Some blk.
Proof.
  destruct p; [done|]. intros H. simpl.
  rewrite lookup_app_l; [done|]. by eapply lookup_lt_Some.
Qed.

Lemma resolved_rooms (pP pR pS : pointer) n m :
  let pos := resolve_buffer pP n m in
  let rot := resolve_buffer pR n pos.2 in
  let scl := resolve_buffer pS n rot.2 in
  usable m n pP → usable m n pR → usable m n pS →
  room (heap scl.2) n pos.1 ∧ room (heap scl.2) n rot.1
  ∧ room (heap scl.2) n scl.1.
Proof.
  intros pos rot scl HP HR HS. split_and!.
  - do 2 apply resolve_keeps. by apply resolve_room.
  - apply resolve_keeps, resolve_room.
    destruct pR; [|done]. by apply resolve_keeps.
  - apply resolve_room. destruct pS; [|done]. by do 2 apply resolve_keeps.
Qed.

(** The memory a completed call leaves: the buffers are settled, then one
    round of the last track decides every block. *)
Lemma convert_run_last (tracks : list track) (t : track) trackIndex
    (outPosKeys outRotKeys outScaleKeys : pointer) m :
  let n := get_num_samples_per_track tracks in
  let pos := resolve_buffer outPosKeys n m in
  let rot := resolve_buffer outRotKeys n pos.2 in
  let scl := resolve_buffer outScaleKeys n rot.2 in
  0 < n → uniform tracks → last tracks = Some t →
  usable m n outPosKeys → usable m n outRotKeys → usable m n outScaleKeys →
  convert tracks trackIndex outPosKeys outRotKeys outScaleKeys m
  = Some (FellOffEnd,
          Mem (wtrack pos.1 rot.1 scl.1 (heap scl.2) t) (events scl.2)).
Proof.
  intros n pos rot scl Hn Hu Hlast HP HR HS.
  pose proof (convert_run quat_normalize QuatCast VectorCast tracks trackIndex
                outPosKeys outRotKeys outScaleKeys m) as Hrun.
  cbn zeta in Hrun. rewrite Hrun; [|fold n; lia|done..].
  fold n pos rot scl. by rewrite (foldl_write_track_last tracks t n).
Qed.

Lemma resolve_heap_length (p : pointer) n m :
  length (heap m) ≤ length (heap (resolve_buffer p n m).2).
Proof. destruct p; simpl; rewrite ?length_app; lia. Qed.

Lemma resolve_old (p : pointer) n m b :
  (resolve_buffer p n m).1 = b → b < length (heap m) → p = Some b.
Proof. destruct p; simpl; [by intros ->|lia]. Qed.

Lemma room_lookup h n b (blk : list cell) :
  room h n b → h !! b = Some blk → n ≤ length blk.
Proof. unfold room. intros H E. by rewrite E in H. Qed.

Lemma settle_shape h n bp br bs (t : track) b (blk : list cell) :
  length t = n → room h n bp → room h n br → room h n bs →
  h !! b = Some blk →
  length (settled bp br bs t b blk) = length blk
  ∧ drop n (settled bp br bs t b blk) = drop n blk.
Proof.
  intros Ht Hp Hr Hs Hb.
  assert (Hfill : ∀ f : qvvf quatf vector4f → cell, n ≤ length blk →
            length (fill (f <$> t) blk) = length blk
            ∧ drop n (fill (f <$> t) blk) = drop n blk).
  { intros f Hn. split.
    - apply length_fill. rewrite length_fmap. lia.
    - pose proof (drop_fill (f <$> t) blk) as Hd.
      by rewrite length_fmap, Ht in Hd. }
  unfold settle.
  repeat case_decide; try done; subst b; apply Hfill;
    (eapply room_lookup; [|exact Hb]; done).
Qed.

Lemma settle_cell bp br bs (t : track) b (blk : list cell) k s :
  t !! k = Some s →
  settled bp br bs t b blk !! k =
    if decide (b = bs) then Some (scl_key s)
    else if decide (b = bp) then Some (pos_key s)
    else if decide (b = br) then Some (rot_key s)
    else blk !! k.
Proof.
  intros Hk. pose proof (lookup_lt_Some _ _ _ Hk) as Hlt. unfold settle.
  repeat case_decide; try reflexivity; unfold fill;
    rewrite lookup_app_l by (by rewrite length_fmap);
    by rewrite list_lookup_fmap, Hk.
Qed.

Lemma last_track_length (tracks : list track) (t : track) :
  uniform tracks → last tracks = Some t →
  length t = get_num_samples_per_track tracks.
Proof.
  intros Hu Hl. apply last_Some_elem_of in Hl.
  by apply (proj1 (Forall_forall _ _) Hu).
Qed.

(** ** What else the converter does and does not do *)

(** X1. A completed call touches nothing but the front of its buffers:
    every block of the caller keeps its length and its elements from index
    numSamples on, and a block that is none of the three buffer arguments
    keeps all of its elements. *)
Theorem convert_leaves_rest_untouched (tracks : list track) trackIndex
    (outPosKeys outRotKeys outScaleKeys : pointer) m :
  let n := get_num_samples_per_track tracks in
  0 < n → uniform tracks →
  usable m n outPosKeys → usable m n outRotKeys → usable m n outScaleKeys →
  ∃ m',
    convert tracks trackIndex outPosKeys outRotKeys outScaleKeys m
      = Some (FellOffEnd, m')
    ∧ ∀ b (blk : list cell), heap m !! b = Some blk →
        ∃ blk' : list cell,
          heap m' !! b = Some blk'
          ∧ length blk' = length blk
          ∧ drop n blk' = drop n blk
          ∧ (outPosKeys ≠ Some b → outRotKeys ≠ Some b →
             outScaleKeys ≠ Some b → blk' = blk).
Proof.
  intros n Hn Hu HP HR HS.
  destruct (last_track_exists tracks Hn) as [t Hlast].
  pose proof (last_track_length tracks t Hu Hlast) as Hlen. fold n in Hlen.
  destruct (resolved_rooms outPosKeys outRotKeys outScaleKeys n m HP HR HS)
    as (Hrp & Hrr & Hrs).
  set (pos := resolve_buffer outPosKeys n m) in *.
  set (rot := resolve_buffer outRotKeys n pos.2) in *.
  set (scl := resolve_buffer outScaleKeys n rot.2) in *.
  exists (Mem (wtrack pos.1 rot.1 scl.1 (heap scl.2) t) (events scl.2)).
  split; [by apply convert_run_last|].
  intros b blk Hb. pose proof (lookup_lt_Some _ _ _ Hb) as Hlt.
  assert (Hb3 : heap scl.2 !! b = Some blk) by (by do 3 apply resolve_lookup).
  cbn [heap]. rewrite write_track_lookup, Hb3. cbn [fmap option_fmap option_map].
  eexists. split; [reflexivity|].
  destruct (settle_shape (heap scl.2) n pos.1 rot.1 scl.1 t b blk) as [Hl Hd];
    [done..|].
  split_and!; [done..|]. intros NP NR NS.
  pose proof (resolve_heap_length outPosKeys n m) as L1.
  pose proof (resolve_heap_length outRotKeys n pos.2) as L2.
  fold pos in L1. fold rot in L2.
  unfold settle. rewrite !decide_False; [done|..].
  - intros ->. apply NR. apply (resolve_old _ n pos.2); [done|lia].
  - intros ->. apply NP. by apply (resolve_old _ n m).
  - intros ->. apply NS. apply (resolve_old _ n rot.2); [done|lia].
Qed.

Lemma fresh_apart (pP pR pS : pointer) n m :
  let pos := resolve_buffer pP n m in
  let rot := resolve_buffer pR n pos.2 in
  let scl := resolve_buffer pS n rot.2 in
  usable m n pP → usable m n pR → usable m n pS →
  (pP = None → pos.1 ≠ rot.1 ∧ pos.1 ≠ scl.1)
  ∧ (pR = None → rot.1 ≠ pos.1 ∧ rot.1 ≠ scl.1)
  ∧ (pS = None → scl.1 ≠ pos.1 ∧ scl.1 ≠ rot.1).
Proof.
  intros pos rot scl HP HR HS.
  destruct pP as [a|], pR as [b|], pS as [c|]; simpl in *;
    repeat match goal with
           | H : room _ _ _ |- _ => apply room_lt in H
           end;
    rewrite ?length_app; simpl; split_and!; intros; (done || lia).
Qed.

Lemma resolve_fresh_block n m :
  heap (resolve_buffer None n m).2 !! (resolve_buffer None n m).1
  = Some (replicate n (Uninit : cell)).
Proof. simpl. by rewrite list_lookup_middle. Qed.

Lemma fill_fresh (vals : list cell) :
  fill vals (replicate (length vals) Uninit) = vals.
Proof.
  unfold fill. rewrite drop_ge by (by rewrite length_replicate).
  apply app_nil_r.
Qed.

Lemma rotation_buffer_apart (pP pR pS : pointer) n m :
  let pos := resolve_buffer pP n m in
  let rot := resolve_buffer pR n pos.2 in
  let scl := resolve_buffer pS n rot.2 in
  usable m n pP → usable m n pR → usable m n pS →
  apart pP pR → apart pR pS →
  rot.1 ≠ pos.1 ∧ rot.1 ≠ scl.1.
Proof.
  intros pos rot scl HP HR HS.
  destruct pP as [a|], pR as [b|], pS as [c|]; simpl in *;
    repeat match goal with
           | H : room _ _ _ |- _ => apply room_lt in H
           end;
    rewrite ?length_app; simpl; intros; split_and!; (done || lia).
Qed.

(** X2. The translation and the scale buffer are both arrays of FVector
    and need not be distinct.  The loops of a round run in the order
    rotation, translation, scale, so when outPosKeys and outScaleKeys name
    the same block the scale loop overwrites what the translation loop
    stored: with the rotation buffer apart from both, the scale buffer
    ends with the scale keys of the last track, the translation buffer
    with its translations unless it is the scale buffer, and the rotation
    buffer with its rotations. *)
Theorem shared_buffer_last_loop_wins (tracks : list track) (t : track)
    trackIndex (outPosKeys outRotKeys outScaleKeys : pointer) m :
  let n := get_num_samples_per_track tracks in
  let pos := resolve_buffer outPosKeys n m in
  let rot := resolve_buffer outRotKeys n pos.2 in
  let scl := resolve_buffer outScaleKeys n rot.2 in
  0 < n → uniform tracks → last tracks = Some t →
  usable m n outPosKeys → usable m n outRotKeys → usable m n outScaleKeys →
  apart outPosKeys outRotKeys → apart outRotKeys outScaleKeys →
  ∃ m',
    convert tracks trackIndex outPosKeys outRotKeys outScaleKeys m
      = Some (FellOffEnd, m')
    ∧ ∀ k, k < n → ∃ s,
        t !! k = Some s
        ∧ cell_at m' scl.1 k = Some (scl_key s)
        ∧ cell_at m' pos.1 k
          = Some (if decide (pos.1 = scl.1) then scl_key s else pos_key s)
        ∧ cell_at m' rot.1 k = Some (rot_key s).
Proof.
  intros n pos rot scl Hn Hu Hlast HP HR HS Hpr Hrs.
  pose proof (last_track_length tracks t Hu Hlast) as Hlen. fold n in Hlen.
  destruct (resolved_rooms outPosKeys outRotKeys outScaleKeys n m HP HR HS)
    as (Hrp & Hrr & Hrs'). fold pos rot scl in Hrp, Hrr, Hrs'.
  destruct (rotation_buffer_apart outPosKeys outRotKeys outScaleKeys n m
              HP HR HS Hpr Hrs) as (Nrp & Nrs). fold pos rot scl in Nrp, Nrs.
  exists (Mem (wtrack pos.1 rot.1 scl.1 (heap scl.2) t) (events scl.2)).
  split; [by apply convert_run_last|].
  intros k Hk. destruct (lookup_lt_is_Some_2 t k) as [s Hs]; [lia|].
  exists s. split; [done|].
  unfold cell_at, room in *. cbn [heap]. rewrite !write_track_lookup.
  destruct (heap scl.2 !! scl.1) as [bS|]; [|done].
  destruct (heap scl.2 !! pos.1) as [bP|]; [|done].
  destruct (heap scl.2 !! rot.1) as [bR|]; [|done].
  simpl. rewrite !(settle_cell _ _ _ t _ _ k s Hs).
  split_and!; repeat case_decide; congruence.
Qed.

(** X3. A block the converter allocates for an absent argument has
    exactly numSamples elements and every one of them is written: after
    the call it is the key array of the last track, with no raw element
    left. *)
Theorem fresh_blocks_are_filled_exactly (tracks : list track) (t : track)
    trackIndex (outPosKeys outRotKeys outScaleKeys : pointer) m :
  let n := get_num_samples_per_track tracks in
  let pos := resolve_buffer outPosKeys n m in
  let rot := resolve_buffer outRotKeys n pos.2 in
  let scl := resolve_buffer outScaleKeys n rot.2 in
  0 < n → uniform tracks → last tracks = Some t →
  usable m n outPosKeys → usable m n outRotKeys → usable m n outScaleKeys →
  ∃ m',
    convert tracks trackIndex outPosKeys outRotKeys outScaleKeys m
      = Some (FellOffEnd, m')
    ∧ (outPosKeys = None → heap m' !! pos.1 = Some (pos_key <$> t))
    ∧ (outRotKeys = None → heap m' !! rot.1 = Some (rot_key <$> t))
    ∧ (outScaleKeys = None → heap m' !! scl.1 = Some (scl_key <$> t)).
Proof.
  intros n pos rot scl Hn Hu Hlast HP HR HS.
  pose proof (last_track_length tracks t Hu Hlast) as Hlen. fold n in Hlen.
  destruct (fresh_apart outPosKeys outRotKeys outScaleKeys n m HP HR HS)
    as (FP & FR & FS). fold pos rot scl in FP, FR, FS.
  exists (Mem (wtrack pos.1 rot.1 scl.1 (heap scl.2) t) (events scl.2)).
  split; [by apply convert_run_last|].
  cbn [heap]. rewrite !write_track_lookup. split_and!; intros Hnone.
  - destruct (FP Hnone) as [N1 N2].
    assert (Hblk : heap scl.2 !! pos.1 = Some (replicate n Uninit)).
    { do 2 apply resolve_lookup. subst pos. rewrite Hnone.
      apply resolve_fresh_block. }
    rewrite Hblk. simpl. unfold settle.
    rewrite decide_False, decide_True by done.
    f_equal. rewrite <- Hlen, <- (length_fmap pos_key t). apply fill_fresh.
  - destruct (FR Hnone) as [N1 N2].
    assert (Hblk : heap scl.2 !! rot.1 = Some (replicate n Uninit)).
    { apply resolve_lookup. subst rot. rewrite Hnone.
      apply resolve_fresh_block. }
    rewrite Hblk. simpl. unfold settle.
    rewrite !decide_False, decide_True by done.
    f_equal. rewrite <- Hlen, <- (length_fmap rot_key t). apply fill_fresh.
  - assert (Hblk : heap scl.2 !! scl.1 = Some (replicate n Uninit)).
    { subst scl. rewrite Hnone. apply resolve_fresh_block. }
    rewrite Hblk. simpl. unfold settle. rewrite decide_True by done.
    f_equal. rewrite <- Hlen, <- (length_fmap scl_key t). apply fill_fresh.
Qed.

(** X4. Converting again into the same caller buffers changes nothing:
    once a call has completed, a second call on the memory it left, with
    the same three buffers and any trackIndex, completes and leaves that
    memory as it is. *)
Theorem convert_again_changes_nothing (tracks : list track) i j bp br bs m :
  let n := get_num_samples_per_track tracks in
  0 < n → uniform tracks →
  room (heap m) n bp → room (heap m) n br → room (heap m) n bs →
  ∃ m',
    convert tracks i (Some bp) (Some br) (Some bs) m = Some (FellOffEnd, m')
    ∧ convert tracks j (Some bp) (Some br) (Some bs) m' = Some (FellOffEnd, m').
Proof.
  intros n Hn Hu Hp Hr Hs.
  destruct (last_track_exists tracks Hn) as [t Hlast].
  pose proof (last_track_length tracks t Hu Hlast) as Hlen. fold n in Hlen.
  exists (Mem (wtrack bp br bs (heap m) t) (events m)).
  split; [by apply (convert_run_last tracks t i (Some bp) (Some br) (Some bs))|].
  rewrite (convert_run_last tracks t j (Some bp) (Some br) (Some bs));
    try done; try (by apply room_write_track).
  cbn [resolve_buffer fst snd heap events].
  by rewrite write_track_again.
Qed.

(** X6. The converter never compares trackIndex with the number of
    tracks: an index at or beyond numTracks is not rejected, the call
    completes exactly as it does for the last valid index. *)
Theorem out_of_range_trackIndex_is_accepted (tracks : list track) trackIndex
    (outPosKeys outRotKeys outScaleKeys : pointer) m :
  let n := get_num_samples_per_track tracks in
  get_num_tracks tracks ≤ trackIndex →
  0 < n → uniform tracks →
  usable m n outPosKeys → usable m n outRotKeys → usable m n outScaleKeys →
  ∃ m',
    convert tracks trackIndex outPosKeys outRotKeys outScaleKeys m
      = Some (FellOffEnd, m')
    ∧ convert tracks (get_num_tracks tracks - 1)
        outPosKeys outRotKeys outScaleKeys m = Some (FellOffEnd, m').
Proof.
  intros n _ Hn Hu HP HR HS.
  destruct (last_track_exists tracks Hn) as [t Hlast].
  eexists. split; by apply (convert_run_last tracks t).
Qed.

Lemma bind_fail {A B} (c : M A) (k : A → M B) m :
  c m = None → (c ≫= k) m = None.
Proof. intros H. unfold mbind, M_bind. by rewrite H. Qed.

Lemma for_range_app (body : nat → M ()) a c i m :
  for_range i (a + c) body m
  = (for_range i a body ;; for_range (i + a) c body) m.
Proof.
  revert i m. induction a as [|a IH]; intros i m.
  - simpl. unfold mbind, M_bind, mret, M_ret. by rewrite Nat.add_0_r.
  - cbn [Nat.add for_range]. unfold mbind at 1 3, M_bind at 1 3.
    destruct (body i m) as [[[] m1]|] eqn:E.
    + rewrite IH. unfold mbind, M_bind at 1 2. rewrite E.
      by replace (i + S a) with (S i + a) by lia.
    + unfold mbind, M_bind. by rewrite E.
Qed.

Lemma for_range_first_fail (body : nat → M ()) i n m :
  body i m = None → for_range i (S n) body m = None.
Proof. intros H. simpl. by apply bind_fail. Qed.

(** A sample loop over a block that is too short stops at the first slot
    past its end. *)
Lemma sample_loop_short (f : qvvf quatf vector4f → cell) (t : track)
    b n h ev (blk : list cell) :
  h !! b = Some blk → length blk < n → n ≤ length t →
  for_range 0 n (λ sampleIndex, s ← index t sampleIndex;
                                store b sampleIndex (f s)) (Mem h ev)
  = None.
Proof.
  intros Hb Hshort Ht.
  replace n with (length blk + S (n - length blk - 1)) by lia.
  rewrite for_range_app. unfold mbind at 1, M_bind at 1.
  rewrite (sample_loop_prefix f t b (length blk) h ev blk) by (done || lia).
  apply for_range_first_fail. cbn [Nat.add].
  destruct (lookup_lt_is_Some_2 t (length blk)) as [s Hs]; [lia|].
  unfold mbind, M_bind, index, store. rewrite Hs. cbn [heap].
  rewrite list_lookup_insert_eq by (by eapply lookup_lt_Some).
  rewrite length_fill by (rewrite length_fmap, length_take; lia).
  by rewrite decide_False by lia.
Qed.

Lemma store_keeps_length b i (c : cell) m m' b' (blk : list cell) :
  store b i c m = Some ((), m') → heap m !! b' = Some blk →
  ∃ blk' : list cell, heap m' !! b' = Some blk' ∧ length blk' = length blk.
Proof.
  unfold store. destruct (heap m !! b) as [old|] eqn:E; [|done].
  case_decide; [|done]. intros [= <-] Hb'. cbn [heap].
  destruct (decide (b = b')) as [<-|Hne].
  - rewrite list_lookup_insert_eq by (by eapply lookup_lt_Some).
    eexists. split; [done|]. rewrite length_insert. congruence.
  - rewrite list_lookup_insert_ne by done. by eexists.
Qed.

Lemma for_range_invariant (I : mem → Prop) (body : nat → M ()) :
  (∀ k m m', I m → body k m = Some ((), m') → I m') →
  ∀ n i m m', I m → for_range i n body m = Some ((), m') → I m'.
Proof.
  intros Hstep. induction n as [|n IH]; intros i m m' HI.
  - by intros [= <-].
  - simpl. unfold mbind, M_bind.
    destruct (body i m) as [[[] m1]|] eqn:E; [|done].
    intros Hrest. eapply IH; [|exact Hrest]. by eapply Hstep.
Qed.

Lemma sample_loop_keeps_length (f : qvvf quatf vector4f → cell) (t : track)
    b n m m' b' L :
  for_range 0 n (λ sampleIndex, s ← index t sampleIndex;
                                store b sampleIndex (f s)) m
  = Some ((), m') →
  (∃ blk : list cell, heap m !! b' = Some blk ∧ length blk = L) →
  ∃ blk : list cell, heap m' !! b' = Some blk ∧ length blk = L.
Proof.
  intros Hrun HI.
  eapply (for_range_invariant
            (λ m, ∃ blk : list cell, heap m !! b' = Some blk ∧ length blk = L));
    [|exact HI|exact Hrun].
  clear. intros k m m' (blk & Hb & Hl). unfold mbind, M_bind, index.
  destruct (t !! k) as [s|]; [|done]. intros Hstore.
  destruct (store_keeps_length _ _ _ _ _ _ _ Hstore Hb) as (blk' & ? & ?).
  exists blk'. split; [done|congruence].
Qed.

(** One round of the track loop over a buffer that is too short. *)
Lemma round_short (t : track) n bp br bs b h ev (blk : list cell) :
  n ≤ length t → b = bp ∨ b = br ∨ b = bs →
  h !! b = Some blk → length blk < n →
  (for_range 0 n (λ sampleIndex, s ← index t sampleIndex;
      store br sampleIndex (rot_key s));;
   for_range 0 n (λ sampleIndex, s ← index t sampleIndex;
      store bp sampleIndex (pos_key s));;
   for_range 0 n (λ sampleIndex, s ← index t sampleIndex;
      store bs sampleIndex (scl_key s))) (Mem h ev)
  = None.
Proof.
  intros Ht Hwhich Hb Hshort.
  assert (HI : ∃ blk0 : list cell,
            heap (Mem h ev) !! b = Some blk0 ∧ length blk0 = length blk)
    by (by exists blk).
  unfold mbind at 1, M_bind at 1.
  destruct (for_range 0 n _ (Mem h ev)) as [[[] [h1 ev1]]|] eqn:E1; [|done].
  destruct (decide (b = br)) as [->|Nr].
  { by rewrite (sample_loop_short _ t br n h ev blk) in E1. }
  destruct (sample_loop_keeps_length _ _ _ _ _ _ b _ E1 HI) as (blk1 & Hb1 & Hl1).
  unfold mbind at 1, M_bind at 1.
  destruct (for_range 0 n _ (Mem h1 ev1)) as [[[] [h2 ev2]]|] eqn:E2; [|done].
  destruct (decide (b = bp)) as [->|Np].
  { rewrite (sample_loop_short _ t bp n h1 ev1 blk1) in E2; [done..|lia|done]. }
  destruct (sample_loop_keeps_length _ _ _ _ _ _ b _ E2
              (ex_intro _ blk1 (conj Hb1 Hl1))) as (blk2 & Hb2 & Hl2).
  assert (b = bs) as -> by (destruct Hwhich as [?|[?|?]]; done).
  apply (sample_loop_short _ t bs n h2 ev2 blk2); [done|lia|done].
Qed.

Lemma short_resolved (pP pR pS : pointer) n m :
  let pos := resolve_buffer pP n m in
  let rot := resolve_buffer pR n pos.2 in
  let scl := resolve_buffer pS n rot.2 in
  short m n pP ∨ short m n pR ∨ short m n pS →
  ∃ b (blk : list cell),
    (b = pos.1 ∨ b = rot.1 ∨ b = scl.1)
    ∧ heap scl.2 !! b = Some blk ∧ length blk < n.
Proof.
  intros pos rot scl Hshort. unfold short in Hshort.
  assert (Hcase : ∃ b (blk : list cell),
            (pP = Some b ∨ pR = Some b ∨ pS = Some b)
            ∧ heap m !! b = Some blk ∧ length blk < n).
  { destruct Hshort as [H|[H|H]];
      [destruct pP as [b|]|destruct pR as [b|]|destruct pS as [b|]];
      try done; destruct (heap m !! b) as [blk|] eqn:E; try done;
      exists b, blk; auto. }
  destruct Hcase as (b & blk & Hwhich & Hb & Hl).
  exists b, blk. split_and!; [|by do 3 apply resolve_lookup|done].
  destruct Hwhich as [-> | [-> | ->]]; auto.
Qed.

(** X5. The converter does not check the size of a buffer it is given:
    when a buffer argument names a block with fewer than numSamples
    elements, the sample loop runs past the end of that block (an access
    outside the block, the faulting outcome of the model) instead of
    returning an error. *)
Theorem short_buffer_is_overrun (tracks : list track) trackIndex
    (outPosKeys outRotKeys outScaleKeys : pointer) m :
  let n := get_num_samples_per_track tracks in
  0 < n →
  short m n outPosKeys ∨ short m n outRotKeys ∨ short m n outScaleKeys →
  convert tracks trackIndex outPosKeys outRotKeys outScaleKeys m = None.
Proof.
  intros n Hn Hshort.
  destruct tracks as [|t0 rest]; [simpl in n; lia|].
  destruct (short_resolved outPosKeys outRotKeys outScaleKeys n m Hshort)
    as (b & blk & Hwhich & Hb & Hl).
  unfold nConvertACLTrack. fold n. rewrite decide_False by lia.
  unfold mbind at 1, M_bind at 1. rewrite or_malloc_run.
  destruct (resolve_buffer outPosKeys n m) as [bp m1].
  cbn [fst snd] in Hwhich, Hb.
  unfold mbind at 1, M_bind at 1. rewrite or_malloc_run.
  destruct (resolve_buffer outRotKeys n m1) as [br m2].
  cbn [fst snd] in Hwhich, Hb.
  unfold mbind at 1, M_bind at 1. rewrite or_malloc_run.
  destruct (resolve_buffer outScaleKeys n m2) as [bs [h3 ev3]].
  cbn [fst snd heap] in Hwhich, Hb.
  apply bind_fail, for_range_first_fail.
  exact (round_short t0 n bp br bs b h3 ev3 blk (Nat.le_refl _) Hwhich Hb Hl).
Qed.

Lemma bind_inv {A B} (c : M A) (k : A → M B) m (r : B) m' :
  (c ≫= k) m = Some (r, m') →
  ∃ a m1, c m = Some (a, m1) ∧ k a m1 = Some (r, m').
Proof.
  unfold mbind, M_bind. destruct (c m) as [[a m1]|]; [|done].
  intros H. by exists a, m1.
Qed.

(** A sample loop over a track that is too short stops at the first
    sample past its end. *)
Lemma sample_loop_short_track (f : qvvf quatf vector4f → cell) (t : track)
    b n h ev (blk : list cell) :
  h !! b = Some blk → length t < n → length t ≤ length blk →
  for_range 0 n (λ sampleIndex, s ← index t sampleIndex;
                                store b sampleIndex (f s)) (Mem h ev)
  = None.
Proof.
  intros Hb Hshort Hroom.
  replace n with (length t + S (n - length t - 1)) by lia.
  rewrite for_range_app. unfold mbind at 1, M_bind at 1.
  rewrite (sample_loop_prefix f t b (length t) h ev blk) by (done || lia).
  apply for_range_first_fail. cbn [Nat.add].
  unfold mbind, M_bind, index. by rewrite lookup_ge_None_2.
Qed.

(** The track loop over a clip with a track shorter than [n]. *)
Lemma track_loop_short (tracks : list track) (t : track) n bp br bs j h ev :
  tracks !! j = Some t → length t < n → room h n br →
  for_range 0 (length tracks) (λ trackIndex,
    t ← index tracks trackIndex;
    for_range 0 n (λ sampleIndex, s ← index t sampleIndex;
      store br sampleIndex (rot_key s));;
    for_range 0 n (λ sampleIndex, s ← index t sampleIndex;
      store bp sampleIndex (pos_key s));;
    for_range 0 n (λ sampleIndex, s ← index t sampleIndex;
      store bs sampleIndex (scl_key s))) (Mem h ev)
  = None.
Proof.
  intros Hj Hshort Hroom. pose proof (lookup_lt_Some _ _ _ Hj) as Hlt.
  unfold room in Hroom. destruct (h !! br) as [blk|] eqn:Hbr; [|done].
  replace (length tracks) with (j + S (length tracks - j - 1)) by lia.
  rewrite for_range_app. unfold mbind at 1, M_bind at 1.
  match goal with
  | |- match ?prefix with _ => _ end = _ =>
      destruct prefix as [[[] [h1 ev1]]|] eqn:E; [|done]
  end.
  assert (HI : ∃ blk1 : list cell,
            heap (Mem h1 ev1) !! br = Some blk1 ∧ length blk1 = length blk).
  { eapply (for_range_invariant
              (λ m, ∃ blk1 : list cell,
                 heap m !! br = Some blk1 ∧ length blk1 = length blk));
      [| |exact E]; [|exists blk; split; [exact Hbr|reflexivity]].
    clear. intros k m m' HI Hround.
    apply bind_inv in Hround as (t & m0 & Hidx & Hround).
    assert (m0 = m) as ->.
    { unfold index in Hidx. destruct (tracks !! k); [|done].
      by injection Hidx as _ <-. }
    apply bind_inv in Hround as ([] & m1 & H1 & Hround).
    apply bind_inv in Hround as ([] & m2 & H2 & H3).
    eapply sample_loop_keeps_length; [exact H3|].
    eapply sample_loop_keeps_length; [exact H2|].
    eapply sample_loop_keeps_length; [exact H1|]. done. }
  destruct HI as (blk1 & Hb1 & Hl1). cbn [heap] in Hb1.
  apply for_range_first_fail. cbn [Nat.add].
  unfold mbind at 1, M_bind at 1, index at 1.
  replace (0 + j) with j by lia. rewrite Hj.
  apply bind_fail.
  apply (sample_loop_short_track _ t br n h1 ev1 blk1); [done|done|lia].
Qed.

(** X7. The converter takes the sample count of the first track for
    every track and checks no other: on a clip that holds a track with
    fewer samples than the first, it reads past the end of that track (an
    access outside the track's samples, the faulting outcome of the model)
    instead of returning an error. *)
Theorem ragged_clip_is_overread (tracks : list track) (t : track) j
    trackIndex (outPosKeys outRotKeys outScaleKeys : pointer) m :
  let n := get_num_samples_per_track tracks in
  tracks !! j = Some t → length t < n →
  usable m n outPosKeys → usable m n outRotKeys → usable m n outScaleKeys →
  convert tracks trackIndex outPosKeys outRotKeys outScaleKeys m = None.
Proof.
  intros n Hj Hshort HP HR HS.
  destruct (resolved_rooms outPosKeys outRotKeys outScaleKeys n m HP HR HS)
    as (_ & Hrr & _).
  unfold nConvertACLTrack. fold n. rewrite decide_False by lia.
  unfold mbind at 1, M_bind at 1. rewrite or_malloc_run.
  destruct (resolve_buffer outPosKeys n m) as [bp m1].
  cbn [fst snd] in Hrr.
  unfold mbind at 1, M_bind at 1. rewrite or_malloc_run.
  destruct (resolve_buffer outRotKeys n m1) as [br m2].
  cbn [fst snd] in Hrr.
  unfold mbind at 1, M_bind at 1. rewrite or_malloc_run.
  destruct (resolve_buffer outScaleKeys n m2) as [bs [h3 ev3]].
  cbn [fst snd heap] in Hrr.
  apply bind_fail.
  exact (track_loop_short tracks t n bp br bs j h3 ev3 Hj Hshort Hrr).
Qed.

End ConverterFacts.

Section ConverterFixtures.
Import Natives Fixture.

Local Abbreviation rot_key :=
  (@rotation_key quatf vector4f FQuat FVector quat_normalize QuatCast).
Local Abbreviation pos_key :=
  (@position_key quatf vector4f FQuat FVector VectorCast).
Local Abbreviation scl_key :=
  (@scale_key quatf vector4f FQuat FVector VectorCast).

Ltac fixture_goal :=
  first [ exact clip_uniform
        | reflexivity
        | progress (unfold usable, short, room); simpl; (lia || done)
        | simpl; (lia || done) ].

Lemma convert_leaves_rest_untouched_witness :
  0 < get_num_samples_per_track clip ∧ uniform clip
  ∧ ∃ m',
      convert clip 0 (Some 0) None (Some 2) three_buffers
        = Some (FellOffEnd, m')
      ∧ ∀ b (blk : list (cell FQuat FVector)),
          heap three_buffers !! b = Some blk →
          ∃ blk' : list (cell FQuat FVector),
            heap m' !! b = Some blk'
            ∧ length blk' = length blk
            ∧ drop 4 blk' = drop 4 blk
            ∧ (Some 0 ≠ Some b → @None nat ≠ Some b → Some 2 ≠ Some b →
               blk' = blk).
Proof.
  split; [simpl; lia|]. split; [exact clip_uniform|].
  apply (convert_leaves_rest_untouched quat_normalize QuatCast VectorCast
           clip 0 (Some 0) None (Some 2) three_buffers); fixture_goal.
Defined.

Lemma shared_buffer_last_loop_wins_witness :
  0 < get_num_samples_per_track clip ∧ uniform clip
  ∧ last clip = Some track1
  ∧ ∃ m',
      convert clip 0 (Some 0) (Some 1) (Some 0) three_buffers
        = Some (FellOffEnd, m')
      ∧ ∀ k, k < 4 → ∃ s,
          track1 !! k = Some s
          ∧ cell_at m' 0 k = Some (scl_key s)
          ∧ cell_at m' 0 k = Some (scl_key s)
          ∧ cell_at m' 1 k = Some (rot_key s).
Proof.
  split; [simpl; lia|]. split; [exact clip_uniform|]. split; [reflexivity|].
  apply (shared_buffer_last_loop_wins quat_normalize QuatCast VectorCast
           clip track1 0 (Some 0) (Some 1) (Some 0) three_buffers);
    first [ fixture_goal | unfold apart; simpl; (lia || done) ].
Defined.

Lemma fresh_blocks_are_filled_exactly_witness :
  0 < get_num_samples_per_track clip ∧ uniform clip
  ∧ last clip = Some track1
  ∧ ∃ m',
      convert clip 0 None None None no_memory = Some (FellOffEnd, m')
      ∧ (@None nat = None → heap m' !! 0 = Some (pos_key <$> track1))
      ∧ (@None nat = None → heap m' !! 1 = Some (rot_key <$> track1))
      ∧ (@None nat = None → heap m' !! 2 = Some (scl_key <$> track1)).
Proof.
  split; [simpl; lia|]. split; [exact clip_uniform|]. split; [reflexivity|].
  apply (fresh_blocks_are_filled_exactly quat_normalize QuatCast VectorCast
           clip track1 0 None None None no_memory); fixture_goal.
Defined.

Lemma convert_again_changes_nothing_witness :
  0 < get_num_samples_per_track clip ∧ uniform clip
  ∧ ∃ m',
      convert clip 0 (Some 0) (Some 1) (Some 2) three_buffers
        = Some (FellOffEnd, m')
      ∧ convert clip 1 (Some 0) (Some 1) (Some 2) m' = Some (FellOffEnd, m').
Proof.
  split; [simpl; lia|]. split; [exact clip_uniform|].
  apply (convert_again_changes_nothing quat_normalize QuatCast VectorCast
           clip 0 1 0 1 2 three_buffers); fixture_goal.
Defined.

Lemma short_buffer_is_overrun_witness :
  0 < get_num_samples_per_track clip
  ∧ short cramped_buffers 4 (Some 1)
  ∧ convert clip 0 (Some 0) (Some 1) (Some 2) cramped_buffers = None.
Proof.
  split; [simpl; lia|]. split; [simpl; lia|].
  apply (short_buffer_is_overrun quat_normalize QuatCast VectorCast
           clip 0 (Some 0) (Some 1) (Some 2) cramped_buffers);
    [simpl; lia|].
  right. left. simpl. lia.
Defined.

Lemma out_of_range_trackIndex_is_accepted_witness :
  get_num_tracks clip ≤ 7
  ∧ 0 < get_num_samples_per_track clip ∧ uniform clip
  ∧ ∃ m',
      convert clip 7 (Some 0) (Some 1) (Some 2) three_buffers
        = Some (FellOffEnd, m')
      ∧ convert clip 1 (Some 0) (Some 1) (Some 2) three_buffers
        = Some (FellOffEnd, m').
Proof.
  split; [simpl; lia|]. split; [simpl; lia|]. split; [exact clip_uniform|].
  apply (out_of_range_trackIndex_is_accepted quat_normalize QuatCast VectorCast
           clip 7 (Some 0) (Some 1) (Some 2) three_buffers); fixture_goal.
Defined.

Lemma ragged_clip_is_overread_witness :
  ragged_clip !! 1 = Some (take 2 track1)
  ∧ length (take 2 track1) < get_num_samples_per_track ragged_clip
  ∧ convert ragged_clip 0 (Some 0) (Some 1) (Some 2) three_buffers = None.
Proof.
  split; [reflexivity|]. split; [simpl; lia|].
  apply (ragged_clip_is_overread quat_normalize QuatCast VectorCast
           ragged_clip (take 2 track1) 1 0 (Some 0) (Some 1) (Some 2)
           three_buffers); fixture_goal.
Defined.

End ConverterFixtures.

(** * The norm of the rotation keys *)

Section RotationSlots.
Import Natives.

Context {quatf vector4f FQuat FVector : Type}.
Variable quat_normalize : quatf → quatf.
Variable QuatCast : quatf → FQuat.
Variable VectorCast : vector4f → FVector.

Local Abbreviation track := (list (Natives.qvvf quatf vector4f)).
Local Abbreviation convert := (nConvertACLTrack quat_normalize QuatCast VectorCast).


End RotationSlots.

Section RotationNorm.
Import Natives Rtm.

Local Open Scope R_scope.







End RotationNorm.
